(** * DearJack: a shallow embedding of the audio engine core

    Source: src/src/main.cpp (SinOsc, DSPFactory, PolyphonicDSP,
    ThreadManager, JackClient) and src/unnamed/part_002 (SquareWave,
    SawWave, and the earlier JackClient).

    Modelling conventions:
    - [double] and [float] values are idealised as exact rationals [Q]
      (no rounding); the constant [M_PI] is the exact dyadic value of the
      double [M_PI], and [TWO_PI = 2.0 * M_PI] is exact in double as well.
    - [std::sin] is not computable on [Q]; every function that renders a
      sine takes the sine implementation [sin : Q -> Q] as an argument.
    - A C++ exception is a value of [exn]; a mutating method returns the
      object state after the call together with the exception it raised,
      if any, so that partial updates before a throw stay visible. *)

From Stdlib Require Import QArith Qround Qabs Lqa.
From stdpp Require Import base gmap strings list pretty.

Local Open Scope Q_scope.

(** ** Constants (main.cpp, lines 152-154) *)

(** [M_PI] as a double: 0x1.921fb54442d18p+1. *)
Definition M_PI : Q := 884279719003555 # 281474976710656.
Definition TWO_PI : Q := 2 * M_PI.
Definition DEFAULT_FREQUENCY : Q := 440.
Definition DEFAULT_AMPLITUDE : Q := 1 # 2.

(** ** Parameter values: [std::variant<float, int, std::string>] *)

Inductive param_value :=
| PFloat (f : Q)
| PInt (i : Z)
| PText (s : string).

(** ** Exceptions thrown by the core *)

Inductive exn :=
| RuntimeError (msg : string)   (** [std::runtime_error] *)
| BadVariantAccess              (** [std::get] on the wrong alternative *)
| UndefinedBehaviour.           (** [voices[0]] on an empty vector *)

(** [std::get<float>(value)] *)
Definition get_float (v : param_value) : Q + exn :=
  match v with
  | PFloat f => inl f
  | _ => inr BadVariantAccess
  end.

(** ** DSP nodes

    The virtual [DSP] hierarchy is a closed inductive type.  Oscillators
    carry their audio-thread [phase] and the atomic [frequency]
    (and, for [SinOsc], [amplitude]).  A [PolyphonicDSP] owns its voices. *)

#[local] Set Warnings "-register-all".
Inductive DSP :=
| SinOsc (phase frequency amplitude : Q)
| SquareWave (phase frequency : Q)
| SawWave (phase frequency : Q)
| PolyphonicDSP (voices : list DSP).

(** Default constructors. *)
Definition new_SinOsc : DSP := SinOsc 0 DEFAULT_FREQUENCY DEFAULT_AMPLITUDE.
Definition new_SquareWave : DSP := SquareWave 0 DEFAULT_FREQUENCY.
Definition new_SawWave : DSP := SawWave 0 DEFAULT_FREQUENCY.

(** Induction over nested voices. *)
Section DSP_nested_ind.
Variable P : DSP -> Prop.
Hypothesis HSin : forall p f a, P (SinOsc p f a).
Hypothesis HSquare : forall p f, P (SquareWave p f).
Hypothesis HSaw : forall p f, P (SawWave p f).
Hypothesis HPoly : forall vs, Forall P vs -> P (PolyphonicDSP vs).

Fixpoint DSP_nested_ind (d : DSP) : P d :=
  match d with
  | SinOsc p f a => HSin p f a
  | SquareWave p f => HSquare p f
  | SawWave p f => HSaw p f
  | PolyphonicDSP vs =>
      HPoly vs ((fix go (l : list DSP) : Forall P l :=
                   match l with
                   | [] => Forall_nil_2 P
                   | v :: l' => Forall_cons_2 P v l' (DSP_nested_ind v) (go l')
                   end) vs)
  end.
End DSP_nested_ind.

(** ** Parameters *)

(** [get_parameter_names]; the polyphonic node answers with voice 0's
    names (an empty voice vector is undefined behaviour in the source and
    is given no names here). *)
Definition get_parameter_names (d : DSP) : list string :=
  (fix names (d : DSP) : list string :=
     match d with
     | SinOsc _ _ _ => ["frequency"; "amplitude"]
     | SquareWave _ _ | SawWave _ _ => ["frequency"]
     | PolyphonicDSP [] => []
     | PolyphonicDSP (v :: _) => names v
     end) d.

(** The fan-out loop of [PolyphonicDSP::set_parameter] (main.cpp 335-337):
    [voice->set_parameter(name, value)] for every voice in order; an
    exception leaves the loop with the voices already updated. *)
Fixpoint fan_out (setter : DSP -> DSP * option exn) (vs : list DSP)
  : list DSP * option exn :=
  match vs with
  | [] => ([], None)
  | v :: rest =>
      match setter v with
      | (v', None) => let '(rest', e) := fan_out setter rest in (v' :: rest', e)
      | (v', Some e) => (v' :: rest, Some e)
      end
  end.

(** [set_parameter]: returns the state after the call and the exception
    raised, if any. *)
Fixpoint set_parameter (name : string) (value : param_value) (d : DSP)
  : DSP * option exn :=
  match d with
  | SinOsc p f a =>
      if String.eqb name "frequency" then
        match get_float value with
        | inl v => (SinOsc p v a, None)
        | inr e => (d, Some e)
        end
      else if String.eqb name "amplitude" then
        match get_float value with
        | inl v => (SinOsc p f v, None)
        | inr e => (d, Some e)
        end
      else (d, None)
  | SquareWave p f =>
      if String.eqb name "frequency" then
        match get_float value with
        | inl v => (SquareWave p v, None)
        | inr e => (d, Some e)
        end
      else (d, None)
  | SawWave p f =>
      if String.eqb name "frequency" then
        match get_float value with
        | inl v => (SawWave p v, None)
        | inr e => (d, Some e)
        end
      else (d, None)
  | PolyphonicDSP vs =>
      let '(vs', e) := fan_out (set_parameter name value) vs in
      (PolyphonicDSP vs', e)
  end.

(** [get_parameter]: a value or the exception thrown. *)
Fixpoint get_parameter (name : string) (d : DSP) : param_value + exn :=
  match d with
  | SinOsc _ f a =>
      if String.eqb name "frequency" then inl (PFloat f)
      else if String.eqb name "amplitude" then inl (PFloat a)
      else inr (RuntimeError ("Unknown parameter: " +:+ name))
  | SquareWave _ f | SawWave _ f =>
      if String.eqb name "frequency" then inl (PFloat f)
      else inr (RuntimeError ("Unknown parameter: " +:+ name))
  | PolyphonicDSP [] => inr UndefinedBehaviour
  | PolyphonicDSP (v :: _) => get_parameter name v
  end.


(** Well-formed nodes: a polyphonic node has at least one voice (the
    source indexes [voices[0]]), every voice is well formed, and all
    voices come from one constructor, so they share voice 0's
    parameter names. *)
Inductive wf : DSP -> Prop :=
| wf_SinOsc p f a : wf (SinOsc p f a)
| wf_SquareWave p f : wf (SquareWave p f)
| wf_SawWave p f : wf (SawWave p f)
| wf_Polyphonic v vs :
    wf v -> Forall wf vs ->
    Forall (fun w => get_parameter_names w = get_parameter_names v) vs ->
    wf (PolyphonicDSP (v :: vs)).

(** ** Audio processing *)

Definition Qltb (x y : Q) : bool := negb (Qle_bool y x).

(** [double phase_increment = TWO_PI * frequency.load() / sample_rate;] *)
Definition phase_increment (frequency sample_rate : Q) : Q :=
  TWO_PI * frequency / sample_rate.

(** One step of the accumulator:
    [phase += phase_increment; if (phase >= TWO_PI) phase -= TWO_PI;] *)
Definition advance (inc p : Q) : Q :=
  let p' := p + inc in
  if Qle_bool TWO_PI p' then p' - TWO_PI else p'.

(** The sample loop of every oscillator: write [wave phase], then advance.
    Returns the samples written to [outputs[0][0..n)] and the final phase. *)
Fixpoint osc_loop (wave : Q -> Q) (inc p : Q) (n : nat) : list Q * Q :=
  match n with
  | O => ([], p)
  | S n' =>
      let '(out, p') := osc_loop wave inc (advance inc p) n' in
      (wave p :: out, p')
  end.

(** The phase after [k] samples. *)
Fixpoint phase_after (inc p : Q) (k : nat) : Q :=
  match k with
  | O => p
  | S k' => phase_after inc (advance inc p) k'
  end.

(** Waveforms, from the values loaded at buffer start. *)
Definition sine_wave (sin : Q -> Q) (amp : Q) (ph : Q) : Q := amp * sin ph.
Definition square_wave (ph : Q) : Q := if Qltb ph M_PI then 1 else -1.
Definition saw_wave (ph : Q) : Q := 2 * (ph / TWO_PI) - 1.

(** Overwriting [outputs[0][i]] for [i < length out] in a buffer. *)
Definition write_buffer (buf out : list Q) : list Q :=
  out ++ drop (length out) buf.

(** The voice loop of [PolyphonicDSP::process_audio] (main.cpp 356-359):
    every voice is handed [voice_outputs], whose only pointer is
    [mixed_output.data()], and writes its samples there. *)
Fixpoint poly_run (proc : DSP -> DSP * list Q) (vs : list DSP) (mixed : list Q)
  : list DSP * list Q :=
  match vs with
  | [] => ([], mixed)
  | v :: rest =>
      let '(v', out) := proc v in
      let '(rest', mixed') := poly_run proc rest (write_buffer mixed out) in
      (v' :: rest', mixed')
  end.

(** [process_audio nframes inputs outputs sample_rate]: the node after the
    call and the contents of [outputs[0][0..nframes)].  For
    [PolyphonicDSP] (main.cpp 350-365): one [mixed_output] vector of
    [nframes] zeros, the voice loop above, then
    [outputs[0][i] = mixed_output[i]]. *)
Fixpoint process_audio (sin : Q -> Q) (nframes : nat) (sample_rate : Q)
  (d : DSP) : DSP * list Q :=
  match d with
  | SinOsc p f a =>
      let inc := phase_increment f sample_rate in
      let amp := a in
      let '(out, p') := osc_loop (sine_wave sin amp) inc p nframes in
      (SinOsc p' f a, out)
  | SquareWave p f =>
      let inc := phase_increment f sample_rate in
      let '(out, p') := osc_loop square_wave inc p nframes in
      (SquareWave p' f, out)
  | SawWave p f =>
      let inc := phase_increment f sample_rate in
      let '(out, p') := osc_loop saw_wave inc p nframes in
      (SawWave p' f, out)
  | PolyphonicDSP vs =>
      let '(vs', mixed) :=
        poly_run (process_audio sin nframes sample_rate) vs (repeat 0 nframes) in
      (PolyphonicDSP vs', firstn nframes mixed)
  end.

(** The mix the spec describes (section 4.3): every voice rendered into a
    private buffer, the private buffers summed sample by sample. *)
Definition spec_mix (nframes : nat) (voice_outs : list (list Q)) : list Q :=
  foldl (zip_with Qplus) (repeat 0 nframes) voice_outs.

Definition spec_polyphonic_output (sin : Q -> Q) (nframes : nat)
  (sample_rate : Q) (vs : list DSP) : list Q :=
  spec_mix nframes (map (fun v => snd (process_audio sin nframes sample_rate v)) vs).

(** ** Oscillator state, snapshots and concurrent control writes *)

(** The audio-thread phase and the atomic frequency of an oscillator. *)
Definition osc_state (d : DSP) : option (Q * Q) :=
  match d with
  | SinOsc p f _ | SquareWave p f | SawWave p f => Some (p, f)
  | PolyphonicDSP _ => None
  end.

(** [phase = local_phase;] *)
Definition with_phase (d : DSP) (p : Q) : DSP :=
  match d with
  | SinOsc _ f a => SinOsc p f a
  | SquareWave _ f => SquareWave p f
  | SawWave _ f => SawWave p f
  | PolyphonicDSP vs => PolyphonicDSP vs
  end.

(** The waveform of an oscillator, given the node from which the
    remaining atomics ([amplitude] for [SinOsc]) are loaded. *)
Definition osc_wave (sin : Q -> Q) (d : DSP) : Q -> Q :=
  match d with
  | SinOsc _ _ a => sine_wave sin a
  | SquareWave _ _ => square_wave
  | SawWave _ _ => saw_wave
  | PolyphonicDSP _ => fun _ => 0
  end.

(** A batch of [set_parameter] calls issued by a control thread. *)
Definition control_writes := list (string * param_value).

Definition apply_writes (ws : control_writes) (d : DSP) : DSP :=
  foldl (fun d '(n, v) => fst (set_parameter n v d)) d ws.

(** The oscillator sample loop run against a node whose atomics are
    concurrently written: [ctrl] lists the control writes landing before
    each sample.  The loop body reads only its locals. *)
Fixpoint osc_loop_interleaved (wave : Q -> Q) (inc p : Q)
  (ctrl : list control_writes) (d : DSP) (n : nat) : list Q * Q * DSP :=
  match n with
  | O => ([], p, d)
  | S n' =>
      let '(w, ctrl') := match ctrl with [] => ([], []) | w :: c => (w, c) end in
      let d1 := apply_writes w d in
      let '(out, p', d') := osc_loop_interleaved wave inc (advance inc p) ctrl' d1 n' in
      (wave p :: out, p', d')
  end.

(** Oscillator [process_audio] under concurrent control writes: [w0] lands
    between the [frequency.load()] and the next load (the
    [amplitude.load()] of [SinOsc]; the loop for the others). *)
Definition process_audio_interleaved (sin : Q -> Q) (w0 : control_writes)
  (ctrl : list control_writes) (nframes : nat) (sample_rate : Q) (d : DSP)
  : DSP * list Q :=
  match osc_state d with
  | Some (p, f) =>
      let inc := phase_increment f sample_rate in
      let d1 := apply_writes w0 d in
      let wave := osc_wave sin d1 in
      let '(out, p', d2) := osc_loop_interleaved wave inc p ctrl d1 nframes in
      (with_phase d2 p', out)
  | None => process_audio sin nframes sample_rate d
  end.

(** A stand-in sine, for nodes that never call it. *)
Definition no_sin : Q -> Q := fun _ => 0.

(** ** DSPFactory (main.cpp 282-318)

    [std::unordered_map<std::string, DSPCreator> creators]; a creator is a
    [std::function<std::unique_ptr<DSP>()>], called on every [create_dsp]. *)

Definition DSPCreator := unit -> DSP.

Definition register_dsp (name : string) (creator : DSPCreator)
  (creators : gmap string DSPCreator) : gmap string DSPCreator :=
  <[name := creator]> creators.

Definition create_dsp (creators : gmap string DSPCreator) (name : string)
  : DSP + exn :=
  match creators !! name with
  | Some creator => inl (creator tt)
  | None => inr (RuntimeError ("Unknown DSP type: " +:+ name))
  end.

Definition get_registered_dsps (creators : gmap string DSPCreator) : list string :=
  map fst (map_to_list creators).

(** The factory after a sequence of [register_dsp] calls on the empty
    singleton. *)
Definition factory_of (regs : list (string * DSPCreator)) : gmap string DSPCreator :=
  foldl (fun m '(n, c) => register_dsp n c m) empty regs.

(** ** ThreadManager (main.cpp 384-446)

    Static state: the worker threads, the task queue and [quit_flag].  A
    worker is identified by its index in [threads]; tasks are opaque. *)

Record ThreadManager := {
  threads : list nat;
  tasks : list nat;
  quit_flag : bool
}.

Definition tm_initial : ThreadManager :=
  {| threads := []; tasks := []; quit_flag := false |}.

(** [init(num_threads)]: [quit_flag = false], then [num_threads] calls to
    [threads.emplace_back(worker_thread)]. *)
Definition tm_init (num_threads : nat) (tm : ThreadManager) : ThreadManager :=
  let fix spawn (k : nat) (ts : list nat) : list nat :=
    match k with
    | O => ts
    | S k' => spawn k' (ts ++ [length ts])
    end in
  {| threads := spawn num_threads (threads tm); tasks := tasks tm; quit_flag := false |}.

(** [run_task(task)]: push to the queue. *)
Definition tm_run_task (task : nat) (tm : ThreadManager) : ThreadManager :=
  {| threads := threads tm; tasks := tasks tm ++ [task]; quit_flag := quit_flag tm |}.

(** ** JackClient construction (main.cpp 470-506)

    The JACK server is an oracle deciding each request; the constructor
    is recorded as the trace of server calls it makes, and ends either in
    a constructed client or in the exception it throws. *)

Record JackServer := {
  open_ok : string -> bool;             (** [jack_client_open] non-null *)
  set_process_callback_ok : bool;       (** [jack_set_process_callback] == 0 *)
  port_register_ok : string -> bool;    (** [jack_port_register] non-null *)
  activate_ok : bool                    (** [jack_activate] == 0 *)
}.

Inductive port_dir := JackPortIsInput | JackPortIsOutput.

Inductive jack_call :=
| CallClientOpen (name : string)
| CallSetProcessCallback
| CallOnShutdown
| CallPortRegister (port_name : string) (dir : port_dir)
| CallActivate
| CallClientClose.

(** A port handle: [None] is the null pointer. *)
Definition jack_port := option string.

Record JackClient := {
  client_open : bool;
  input_ports : list jack_port;
  output_ports : list jack_port;
  jc_dsp : DSP;
  jc_name : string
}.

(** [get_num_inputs] / [get_num_outputs]; the polyphonic node answers with
    voice 0's counts (an empty voice vector, undefined behaviour in the
    source, is given none). *)
Fixpoint get_num_inputs (d : DSP) : nat :=
  match d with
  | PolyphonicDSP (v :: _) => get_num_inputs v
  | _ => 0
  end.

Fixpoint get_num_outputs (d : DSP) : nat :=
  match d with
  | SinOsc _ _ _ | SquareWave _ _ | SawWave _ _ => 1
  | PolyphonicDSP [] => 0
  | PolyphonicDSP (v :: _) => get_num_outputs v
  end.

(** [jack_port_register(client, name, ...)]. *)
Definition jack_port_register (srv : JackServer) (name : string) : jack_port :=
  if port_register_ok srv name then Some name else None.

(** [("input" + std::to_string(i))] and [("output" + std::to_string(i))]. *)
Definition input_port_name (i : nat) : string := "input" +:+ pretty i.
Definition output_port_name (i : nat) : string := "output" +:+ pretty i.

Definition JackClient_new (srv : JackServer) (client_name : string) (dsp : DSP)
  : list jack_call * (JackClient + exn) :=
  let t_open := [CallClientOpen client_name] in
  if negb (open_ok srv client_name) then
    (t_open, inr (RuntimeError "Failed to open JACK client"))
  else
  let t_cb := t_open ++ [CallSetProcessCallback] in
  if negb (set_process_callback_ok srv) then
    (t_cb ++ [CallClientClose], inr (RuntimeError "Failed to set JACK process callback"))
  else
  let t_sd := t_cb ++ [CallOnShutdown] in
  let in_names := map input_port_name (seq 0 (get_num_inputs dsp)) in
  let out_names := map output_port_name (seq 0 (get_num_outputs dsp)) in
  let input_ports := map (jack_port_register srv) in_names in
  let output_ports := map (jack_port_register srv) out_names in
  let t_ports := t_sd ++ map (fun n => CallPortRegister n JackPortIsInput) in_names
                      ++ map (fun n => CallPortRegister n JackPortIsOutput) out_names in
  if negb (activate_ok srv) then
    (t_ports ++ [CallActivate; CallClientClose],
     inr (RuntimeError "Failed to activate JACK client"))
  else
    (t_ports ++ [CallActivate],
     inl {| client_open := true; input_ports := input_ports;
            output_ports := output_ports; jc_dsp := dsp; jc_name := client_name |}).

(** The earlier single-port [JackClient] constructor
    (src/unnamed/part_002, lines 38-61), which checks its port. *)
Definition JackClient_single_new (srv : JackServer) (client_name : string)
  : list jack_call * (jack_port + exn) :=
  let t_open := [CallClientOpen client_name] in
  if negb (open_ok srv client_name) then
    (t_open, inr (RuntimeError "Failed to open JACK client"))
  else
  let t_reg := t_open ++ [CallSetProcessCallback; CallOnShutdown;
                          CallPortRegister "output" JackPortIsOutput] in
  match jack_port_register srv "output" with
  | None => (t_reg ++ [CallClientClose], inr (RuntimeError "Failed to register JACK port"))
  | Some port =>
      if negb (activate_ok srv) then
        (t_reg ++ [CallActivate; CallClientClose],
         inr (RuntimeError "Failed to activate JACK client"))
      else (t_reg ++ [CallActivate], inl (Some port))
  end.

(** The earlier client's [process_audio] (src/unnamed/part_002, lines
    85-97): [out[i] = std::sin(phase)], then
    [phase += phase_increment; if (phase >= 2.0 * M_PI) phase -= 2.0 * M_PI;]
    on the member [phase].  Returns the samples and the new [phase]. *)
Definition single_process_audio (sin : Q -> Q) (nframes : nat)
  (sample_rate frequency phase : Q) : list Q * Q :=
  let phase_increment := 2 * M_PI * frequency / sample_rate in
  osc_loop sin phase_increment phase nframes.

(** ** The worker loop and [shutdown] (main.cpp 408-446)

    [worker_thread] waits for [quit_flag || !tasks.empty()], returns when
    [quit_flag && tasks.empty()], and otherwise pops [tasks.front()] under
    the mutex and runs it.  [executed] records the tasks in the order they
    are popped; [submitted] is a ghost record of the [run_task] arguments
    (not a field of the source). *)

Record Pool := {
  pool : ThreadManager;
  executed : list nat;
  submitted : list nat
}.

Definition pool_initial : Pool :=
  {| pool := tm_initial; executed := []; submitted := [] |}.

(** A worker that finds the queue non-empty pops its front and runs it. *)
Definition worker_pop (s : Pool) : option Pool :=
  match threads (pool s), tasks (pool s) with
  | _ :: _, t :: rest =>
      Some {| pool := {| threads := threads (pool s); tasks := rest;
                         quit_flag := quit_flag (pool s) |};
              executed := executed s ++ [t]; submitted := submitted s |}
  | _, _ => None
  end.

(** The steps a pool can take, in any interleaving. *)
Inductive pool_step : Pool -> Pool -> Prop :=
| step_init n s :
    pool_step s {| pool := tm_init n (pool s); executed := executed s;
                   submitted := submitted s |}
| step_run_task t s :
    pool_step s {| pool := tm_run_task t (pool s); executed := executed s;
                   submitted := submitted s ++ [t] |}
| step_worker_pop s s' :
    worker_pop s = Some s' -> pool_step s s'.

Inductive pool_steps : Pool -> Pool -> Prop :=
| pool_steps_refl s : pool_steps s s
| pool_steps_cons s1 s2 s3 : pool_step s1 s2 -> pool_steps s2 s3 -> pool_steps s1 s3.

(** [shutdown()]: [quit_flag = true] under the mutex, [notify_all], then
    [join] on every worker, then [threads.clear()].  A worker returns only
    when [quit_flag && tasks.empty()], so the joins complete once there is
    no worker or the queue is empty; until then the workers keep popping. *)
Definition set_quit (s : Pool) : Pool :=
  {| pool := {| threads := threads (pool s); tasks := tasks (pool s); quit_flag := true |};
     executed := executed s; submitted := submitted s |}.

Definition clear_threads (s : Pool) : Pool :=
  {| pool := {| threads := []; tasks := tasks (pool s); quit_flag := quit_flag (pool s) |};
     executed := executed s; submitted := submitted s |}.

Inductive pool_join : Pool -> Pool -> Prop :=
| join_done s :
    threads (pool s) = [] \/ tasks (pool s) = [] -> pool_join s (clear_threads s)
| join_pop s s1 s2 :
    worker_pop s = Some s1 -> pool_join s1 s2 -> pool_join s s2.

Definition pool_shutdown (s s' : Pool) : Prop := pool_join (set_quit s) s'.

(** ** PolyphonicDSP construction (main.cpp 325-330) and [main]'s
    "Add JackClient" action (main.cpp 631-643)

    [voices(num_voices)], then [voice = this->create_dsp()] for each voice
    in order; an exception from the closure aborts the construction. *)
Definition PolyphonicDSP_new (create : unit -> DSP + exn) (num_voices : nat)
  : DSP + exn :=
  let fix build (k : nat) : list DSP + exn :=
    match k with
    | O => inl []
    | S k' =>
        match create tt with
        | inr e => inr e
        | inl v => match build k' with inl vs => inl (v :: vs) | inr e => inr e end
        end
    end in
  match build num_voices with
  | inl vs => inl (PolyphonicDSP vs)
  | inr e => inr e
  end.

(** [auto dsp = DSPFactory::instance().create_dsp(selected_dsp_type);] then
    a [PolyphonicDSP] of 8 voices whose closure calls [create_dsp] again. *)
Definition add_client_dsp (creators : gmap string DSPCreator) (selected : string)
  : DSP + exn :=
  match create_dsp creators selected with
  | inr e => inr e
  | inl _ => PolyphonicDSP_new (fun _ => create_dsp creators selected) 8
  end.

(** ** JackClient teardown (main.cpp 508-524) *)

(** [jack_shutdown]: the server's notification sets [client = nullptr]. *)
Definition jack_shutdown (c : JackClient) : JackClient :=
  {| client_open := false; input_ports := input_ports c;
     output_ports := output_ports c; jc_dsp := jc_dsp c; jc_name := jc_name c |}.

(** [~JackClient]: [if (client) jack_client_close(client);] *)
Definition JackClient_destroy (c : JackClient) : list jack_call :=
  if client_open c then [CallClientClose] else [].

(** The server calls of one endpoint's whole life: construction, an
    optional server shutdown notification, destruction of a constructed
    client. *)
Definition endpoint_lifecycle (srv : JackServer) (name : string) (dsp : DSP)
  (server_shuts_down : bool) : list jack_call :=
  let '(t, r) := JackClient_new srv name dsp in
  match r with
  | inr _ => t
  | inl c => t ++ JackClient_destroy (if server_shuts_down then jack_shutdown c else c)
  end.

Definition is_close (c : jack_call) : bool :=
  match c with CallClientClose => true | _ => false end.

(** ** render_client_gui (main.cpp 547-578)

    For each parameter name: [get_parameter]; a float ["frequency"] or
    ["amplitude"] gets a float slider, an int an int slider, a string a
    text field; a changed widget value is passed to [set_parameter].  The
    widgets are an oracle returning the new value, if the user changed it. *)
Record Widgets := {
  slider_float : string -> Q -> option Q;
  slider_int : string -> Z -> option Z;
  input_text : string -> string -> option string
}.

Definition gui_param (ui : Widgets) (param : string) (d : DSP) : DSP * option exn :=
  match get_parameter param d with
  | inr e => (d, Some e)
  | inl value =>
      let set_if {A} (o : option A) (mk : A -> param_value) :=
        match o with Some x => set_parameter param (mk x) d | None => (d, None) end in
      match value with
      | PFloat f =>
          if String.eqb param "frequency" || String.eqb param "amplitude"
          then set_if (slider_float ui param f) PFloat
          else (d, None)
      | PInt i => set_if (slider_int ui param i) PInt
      | PText t => set_if (input_text ui param t) PText
      end
  end.

(** The loop over [dsp->get_parameter_names()] (a copy taken before the
    loop); an exception leaves the loop. *)
Fixpoint gui_loop (ui : Widgets) (names : list string) (d : DSP) : DSP * option exn :=
  match names with
  | [] => (d, None)
  | param :: rest =>
      match gui_param ui param d with
      | (d', None) => gui_loop ui rest d'
      | (d', Some e) => (d', Some e)
      end
  end.

Definition render_client_gui (ui : Widgets) (d : DSP) : DSP * option exn :=
  gui_loop ui (get_parameter_names d) d.

(** ** The event loop of [main] (main.cpp 582-689)

    [main] registers ["SinOsc"] only, starts with [selected_dsp_type =
    "SinOsc"] and the counter [static int client_count = 1].  Each frame
    handles the "Add JackClient" and "Remove Last JackClient" buttons, the
    DSP type combo (whose index is always one of [dsp_types]) and one
    panel per client, in its window [client->get_name()].  No exception
    is caught: the first one ends the program. *)
Record MainState := {
  client_count : nat;
  jack_clients : list JackClient;
  selected_dsp_type : string;
  jack_log : list jack_call
}.

Inductive main_event :=
| AddJackClient
| RemoveLastJackClient
| SelectDspType (current_dsp_type : nat)
| RenderClients (ui : string -> Widgets).

Definition main_factory : gmap string DSPCreator :=
  register_dsp "SinOsc" (fun _ => new_SinOsc) empty.

Definition main_initial : MainState :=
  {| client_count := 1; jack_clients := []; selected_dsp_type := "SinOsc"; jack_log := [] |}.

(** [std::string client_name = "DearJack" + std::to_string(client_count++);] *)
Definition client_name (k : nat) : string := "DearJack" +:+ pretty k.

(** [for (const auto &client : jack_clients) render_client_gui(client.get());] *)
Fixpoint render_clients (ui : string -> Widgets) (cs : list JackClient)
  : list JackClient + exn :=
  match cs with
  | [] => inl []
  | c :: rest =>
      match render_client_gui (ui (jc_name c)) (jc_dsp c) with
      | (_, Some e) => inr e
      | (d', None) =>
          match render_clients ui rest with
          | inl rest' =>
              inl ({| client_open := client_open c; input_ports := input_ports c;
                      output_ports := output_ports c; jc_dsp := d';
                      jc_name := jc_name c |} :: rest')
          | inr e => inr e
          end
      end
  end.

Definition main_step (srv : JackServer) (creators : gmap string DSPCreator)
  (ev : main_event) (st : MainState) : MainState + exn :=
  match ev with
  | AddJackClient =>
      let name := client_name (client_count st) in
      match add_client_dsp creators (selected_dsp_type st) with
      | inr e => inr e
      | inl poly =>
          let '(t, r) := JackClient_new srv name poly in
          match r with
          | inr e => inr e
          | inl c =>
              inl {| client_count := S (client_count st);
                     jack_clients := jack_clients st ++ [c];
                     selected_dsp_type := selected_dsp_type st;
                     jack_log := jack_log st ++ t |}
          end
      end
  | RemoveLastJackClient =>
      (* [jack_clients.pop_back()] runs [~JackClient] *)
      match last (jack_clients st) with
      | None => inl st
      | Some c =>
          inl {| client_count := client_count st;
                 jack_clients := removelast (jack_clients st);
                 selected_dsp_type := selected_dsp_type st;
                 jack_log := jack_log st ++ JackClient_destroy c |}
      end
  | SelectDspType idx =>
      match get_registered_dsps creators !! idx with
      | Some n =>
          inl {| client_count := client_count st; jack_clients := jack_clients st;
                 selected_dsp_type := n; jack_log := jack_log st |}
      | None => inl st
      end
  | RenderClients ui =>
      match render_clients ui (jack_clients st) with
      | inl cs =>
          inl {| client_count := client_count st; jack_clients := cs;
                 selected_dsp_type := selected_dsp_type st; jack_log := jack_log st |}
      | inr e => inr e
      end
  end.

Fixpoint main_run (srv : JackServer) (creators : gmap string DSPCreator)
  (evs : list main_event) (st : MainState) : MainState + exn :=
  match evs with
  | [] => inl st
  | ev :: rest =>
      match main_step srv creators ev st with
      | inl st' => main_run srv creators rest st'
      | inr e => inr e
      end
  end.

(** The exceptions of the [JackClient] constructor. *)
Definition jack_error (e : exn) : Prop :=
  e = RuntimeError "Failed to open JACK client" \/
  e = RuntimeError "Failed to set JACK process callback" \/
  e = RuntimeError "Failed to activate JACK client".

(** What [main]'s loop keeps: the selected type is registered, every
    client's node is well formed, and the clients are named
    ["DearJack<k>"] for distinct [k] below the counter. *)
Definition main_inv (creators : gmap string DSPCreator) (st : MainState) : Prop :=
  is_Some (creators !! selected_dsp_type st) /\
  Forall (fun c => wf (jc_dsp c)) (jack_clients st) /\
  Forall (fun c => exists k, (k < client_count st)%nat /\ jc_name c = client_name k)
         (jack_clients st) /\
  NoDup (map jc_name (jack_clients st)).

(** ** Concrete inputs used by the claims below *)

(** A server that accepts everything except port registrations. *)
Definition server_without_ports : JackServer :=
  {| open_ok := fun _ => true; set_process_callback_ok := true;
     port_register_ok := fun _ => false; activate_ok := true |}.

Definition poly_sines : DSP := PolyphonicDSP [new_SinOsc; new_SinOsc; new_SinOsc].

(** The registrations of [main] in part_002. *)
Definition main_registrations : list (string * DSPCreator) :=
  [("SinOsc", fun _ => new_SinOsc); ("SquareWave", fun _ => new_SquareWave);
   ("SawWave", fun _ => new_SawWave)].


Definition server_refusing : JackServer :=
  {| open_ok := fun _ => false; set_process_callback_ok := true;
     port_register_ok := fun _ => true; activate_ok := true |}.



(** A run: [init(2)], [run_task 5], [run_task 7], one worker pop. *)
Definition pool_run : Pool :=
  {| pool := {| threads := [0; 1]%nat; tasks := [7]%nat; quit_flag := false |};
     executed := [5]%nat; submitted := [5; 7]%nat |}.

(** [init(0)], then [run_task 3]. *)
Definition pool_no_worker : Pool :=
  {| pool := {| threads := []; tasks := [3]%nat; quit_flag := false |};
     executed := []; submitted := [3]%nat |}.

Definition pool_no_worker_down : Pool :=
  {| pool := {| threads := []; tasks := [3]%nat; quit_flag := true |};
     executed := []; submitted := [3]%nat |}.

(** Widgets with every slider moved to 1 and nothing else touched. *)
Definition ui_all_one : Widgets :=
  {| slider_float := fun _ _ => Some 1; slider_int := fun _ _ => None;
     input_text := fun _ _ => None |}.

(** ** Proof tactics *)

Ltac not_in_names :=
  repeat (apply not_elem_of_cons; split; [discriminate|]); apply not_elem_of_nil.

Ltac names_cases H :=
  repeat (apply elem_of_cons in H as [H|H]; [subst|]);
  try (apply elem_of_nil in H; contradiction).

(** ** Arithmetic of the phase accumulator *)

Lemma TWO_PI_pos : 0 < TWO_PI.
Proof. unfold TWO_PI, M_PI. lra. Qed.

Lemma advance_spec inc p :
  advance inc p = p + inc - TWO_PI /\ TWO_PI <= p + inc
  \/ advance inc p = p + inc /\ p + inc < TWO_PI.
Proof.
  unfold advance. destruct (Qle_bool TWO_PI (p + inc)) eqn:E.
  - left. apply Qle_bool_iff in E. auto.
  - right. split; [reflexivity|].
    apply Qnot_le_lt. intros H. apply Qle_bool_iff in H. congruence.
Qed.

Lemma advance_range inc p :
  0 <= inc < TWO_PI -> 0 <= p < TWO_PI -> 0 <= advance inc p < TWO_PI.
Proof.
  intros [Hi1 Hi2] [Hp1 Hp2].
  destruct (advance_spec inc p) as [[-> H] | [-> H]]; split; lra.
Qed.

Lemma phase_increment_range f sr :
  0 < sr -> 0 <= f < sr -> 0 <= phase_increment f sr < TWO_PI.
Proof.
  intros Hsr [Hf1 Hf2]. unfold phase_increment.
  pose proof TWO_PI_pos as HT.
  split.
  - apply Qle_shift_div_l; [exact Hsr|]. rewrite Qmult_0_l.
    apply Qmult_le_0_compat; lra.
  - apply Qlt_shift_div_r; [exact Hsr|].
    unfold TWO_PI, M_PI. lra.
Qed.

Lemma phase_after_S inc p k :
  phase_after inc p (S k) = advance inc (phase_after inc p k).
Proof. revert p; induction k as [|k IH]; intros p; [reflexivity|]. apply IH. Qed.

Lemma osc_loop_phase wave inc p n :
  snd (osc_loop wave inc p n) = phase_after inc p n.
Proof.
  revert p; induction n as [|n IH]; intros p; [reflexivity|].
  simpl. specialize (IH (advance inc p)).
  destruct (osc_loop wave inc (advance inc p) n). exact IH.
Qed.

Lemma osc_loop_length wave inc p n :
  length (fst (osc_loop wave inc p n)) = n.
Proof.
  revert p; induction n as [|n IH]; intros p; [reflexivity|].
  simpl. specialize (IH (advance inc p)).
  destruct (osc_loop wave inc (advance inc p) n). simpl in *. congruence.
Qed.

(** Every sample satisfies [P] when the waveform maps an invariant [R] of
    the accumulator into [P]. *)
Lemma osc_loop_Forall (R P : Q -> Prop) wave inc p n :
  R p -> (forall q, R q -> R (advance inc q)) -> (forall q, R q -> P (wave q)) ->
  Forall P (fst (osc_loop wave inc p n)).
Proof.
  intros Hp Hstep Hwave. revert p Hp.
  induction n as [|n IH]; intros p Hp; simpl; [constructor|].
  specialize (IH (advance inc p) (Hstep p Hp)).
  destruct (osc_loop wave inc (advance inc p) n). simpl in *.
  constructor; [apply Hwave, Hp | exact IH].
Qed.

Lemma phase_after_range inc p k :
  0 <= inc < TWO_PI -> 0 <= p < TWO_PI -> 0 <= phase_after inc p k < TWO_PI.
Proof.
  intros Hi. revert p; induction k as [|k IH]; intros p Hp; [exact Hp|].
  apply IH, advance_range; assumption.
Qed.

(** An oscillator's [process_audio] is its sample loop. *)
Lemma process_audio_osc sin nframes sr d p f :
  osc_state d = Some (p, f) ->
  process_audio sin nframes sr d =
  (with_phase d (snd (osc_loop (osc_wave sin d) (phase_increment f sr) p nframes)),
   fst (osc_loop (osc_wave sin d) (phase_increment f sr) p nframes)).
Proof.
  destruct d as [p' f' a| p' f' | p' f' | vs]; simpl; intros H; inversion H; subst;
    destruct (osc_loop _ _ _ _); reflexivity.
Qed.

Lemma osc_state_with_phase d p f q :
  osc_state d = Some (p, f) -> osc_state (with_phase d q) = Some (q, f).
Proof. destruct d; simpl; intros H; inversion H; reflexivity. Qed.

(** Control writes never touch the audio-thread phase. *)
Lemma set_parameter_osc_state name v d p f :
  osc_state d = Some (p, f) ->
  exists f', osc_state (fst (set_parameter name v d)) = Some (p, f').
Proof.
  destruct d as [p' f' a| p' f' | p' f' | vs]; simpl; intros H; inversion H; subst;
    repeat (destruct (String.eqb _ _)); try destruct (get_float v); simpl; eauto.
Qed.

Lemma apply_writes_osc_state ws d p f :
  osc_state d = Some (p, f) ->
  exists f', osc_state (apply_writes ws d) = Some (p, f').
Proof.
  unfold apply_writes. revert d f.
  induction ws as [|[n v] ws IH]; intros d f H; simpl; [eauto|].
  destruct (set_parameter_osc_state n v d p f H) as [f1 H1]. eauto.
Qed.

Lemma osc_loop_interleaved_spec wave inc p ctrl d n :
  let '(out, p', d') := osc_loop_interleaved wave inc p ctrl d n in
  out = fst (osc_loop wave inc p n) /\ p' = phase_after inc p n /\
  (forall q f, osc_state d = Some (q, f) -> exists f', osc_state d' = Some (q, f')).
Proof.
  revert p ctrl d; induction n as [|n IH]; intros p ctrl d; simpl.
  - split; [reflexivity|]. split; [reflexivity|]. eauto.
  - destruct (match ctrl with [] => ([], []) | w :: c => (w, c) end) as [w ctrl'].
    specialize (IH (advance inc p) ctrl' (apply_writes w d)).
    destruct (osc_loop_interleaved wave inc (advance inc p) ctrl' (apply_writes w d) n)
      as [[out p'] d'].
    destruct IH as (Hout & Hp & Hst).
    destruct (osc_loop wave inc (advance inc p) n) as [out0 p0] eqn:E. simpl in *.
    split; [congruence|]. split; [exact Hp|].
    intros q f Hq. destruct (apply_writes_osc_state w d q f Hq) as [f1 H1]. eauto.
Qed.

(** ** Parameters *)

Lemma fan_out_all_ok setter vs :
  Forall (fun v => snd (setter v) = None) vs ->
  fan_out setter vs = (map (fun v => fst (setter v)) vs, None).
Proof.
  induction 1 as [|v vs Hv _ IH]; simpl; [reflexivity|].
  destruct (setter v) as [v' [e|]]; simpl in Hv; [discriminate|].
  rewrite IH. reflexivity.
Qed.

Lemma fan_out_noop setter vs :
  Forall (fun v => setter v = (v, None)) vs -> fan_out setter vs = (vs, None).
Proof. induction 1 as [|v vs Hv _ IH]; simpl; [reflexivity|]. rewrite Hv, IH. reflexivity. Qed.

(** Setting a float value never throws. *)
Lemma set_parameter_float_ok name x d :
  snd (set_parameter name (PFloat x) d) = None.
Proof.
  induction d as [p f a|p f|p f|vs IH] using DSP_nested_ind; simpl;
    repeat (destruct (String.eqb _ _)); try reflexivity.
  rewrite fan_out_all_ok; [reflexivity|].
  eapply Forall_impl; [exact IH|]. intros v Hv. exact Hv.
Qed.

Lemma set_parameter_unknown_noop name v d :
  wf d -> name ∉ get_parameter_names d -> set_parameter name v d = (d, None).
Proof.
  revert v. induction d as [p f a|p f|p f|vs IH] using DSP_nested_ind;
    intros v Hwf Hn; simpl in *.
  - destruct (String.eqb_spec name "frequency") as [->|_]; [set_solver|].
    destruct (String.eqb_spec name "amplitude") as [->|_]; [set_solver|]. reflexivity.
  - destruct (String.eqb_spec name "frequency") as [->|_]; [set_solver|]. reflexivity.
  - destruct (String.eqb_spec name "frequency") as [->|_]; [set_solver|]. reflexivity.
  - inversion Hwf as [| | |v0 vs0 Hv0 Hvs Hnames]; subst.
    apply Forall_cons in IH as [IH0 IHs].
    rewrite fan_out_noop; [reflexivity|].
    constructor; [exact (IH0 v Hv0 Hn)|].
    pose proof (proj2 (Forall_and _ _) (conj (proj2 (Forall_and _ _) (conj IHs Hvs)) Hnames)) as Hall.
    eapply Forall_impl; [exact Hall|]. intros w [[Hw1 Hw2] Hw3]. simpl in Hw3.
    apply Hw1; [exact Hw2|]. rewrite Hw3. exact Hn.
Qed.

Lemma get_parameter_unknown name d :
  wf d -> name ∉ get_parameter_names d ->
  get_parameter name d = inr (RuntimeError ("Unknown parameter: " +:+ name)).
Proof.
  induction d as [p f a|p f|p f|vs IH] using DSP_nested_ind; intros Hwf Hn; simpl in *.
  - destruct (String.eqb_spec name "frequency") as [->|_]; [set_solver|].
    destruct (String.eqb_spec name "amplitude") as [->|_]; [set_solver|]. reflexivity.
  - destruct (String.eqb_spec name "frequency") as [->|_]; [set_solver|]. reflexivity.
  - destruct (String.eqb_spec name "frequency") as [->|_]; [set_solver|]. reflexivity.
  - inversion Hwf as [| | |v0 vs0 Hv0 Hvs Hnames]; subst.
    apply Forall_cons in IH as [IH0 _]. exact (IH0 Hv0 Hn).
Qed.

Lemma set_get_roundtrip name x d :
  wf d -> name ∈ get_parameter_names d ->
  snd (set_parameter name (PFloat x) d) = None /\
  get_parameter name (fst (set_parameter name (PFloat x) d)) = inl (PFloat x).
Proof.
  induction d as [p f a|p f|p f|vs IH] using DSP_nested_ind; intros Hwf Hn; simpl in *.
  - names_cases Hn; split; reflexivity.
  - names_cases Hn; split; reflexivity.
  - names_cases Hn; split; reflexivity.
  - inversion Hwf as [| | |v0 vs0 Hv0 Hvs Hnames]; subst.
    apply Forall_cons in IH as [IH0 _].
    rewrite fan_out_all_ok.
    + simpl. split; [reflexivity|]. apply (IH0 Hv0 Hn).
    + apply Forall_forall. intros w _. apply set_parameter_float_ok.
Qed.

(** ** Polyphonic mixing *)

Lemma write_buffer_full buf out :
  length out = length buf -> write_buffer buf out = out.
Proof.
  intros H. unfold write_buffer. rewrite H, drop_all, app_nil_r. reflexivity.
Qed.

Lemma poly_run_length proc vs mixed n :
  Forall (fun v => length (snd (proc v)) = n) vs -> length mixed = n ->
  length (snd (poly_run proc vs mixed)) = n.
Proof.
  intros Hvs. revert mixed.
  induction Hvs as [|v vs Hv _ IH]; intros mixed Hm; simpl; [exact Hm|].
  destruct (proc v) as [v' out] eqn:E. simpl in Hv.
  specialize (IH (write_buffer mixed out)).
  destruct (poly_run proc vs (write_buffer mixed out)) as [rest' mixed'].
  apply IH. rewrite write_buffer_full; congruence.
Qed.

Lemma process_audio_length sin n sr d :
  length (snd (process_audio sin n sr d)) = n.
Proof.
  induction d as [p f a|p f|p f|vs IH] using DSP_nested_ind; simpl.
  - pose proof (osc_loop_length (sine_wave sin a) (phase_increment f sr) p n) as L.
    destruct (osc_loop _ _ _ _); exact L.
  - pose proof (osc_loop_length square_wave (phase_increment f sr) p n) as L.
    destruct (osc_loop _ _ _ _); exact L.
  - pose proof (osc_loop_length saw_wave (phase_increment f sr) p n) as L.
    destruct (osc_loop _ _ _ _); exact L.
  - pose proof (poly_run_length (process_audio sin n sr) vs (repeat 0 n) n IH
                  (repeat_length _ _)) as L.
    destruct (poly_run _ _ _) as [vs' mixed]. simpl in *.
    rewrite length_firstn, L. lia.
Qed.

(** Every voice overwrites the whole shared buffer: what is left in it is
    the last voice's rendering. *)
Lemma poly_run_last proc vs v mixed n :
  Forall (fun w => length (snd (proc w)) = n) vs -> length mixed = n ->
  length (snd (proc v)) = n ->
  snd (poly_run proc (vs ++ [v]) mixed) = snd (proc v).
Proof.
  intros Hvs. revert mixed.
  induction Hvs as [|w vs Hw _ IH]; intros mixed Hm Hv; simpl.
  - destruct (proc v) as [v' out] eqn:E. simpl in *.
    rewrite write_buffer_full by congruence. reflexivity.
  - destruct (proc w) as [w' out] eqn:E. simpl in Hw.
    specialize (IH (write_buffer mixed out)).
    destruct (poly_run proc (vs ++ [v]) (write_buffer mixed out)) as [rest' mixed'].
    apply IH; [rewrite write_buffer_full; congruence | exact Hv].
Qed.

Lemma polyphonic_output_last_voice sin n sr vs v :
  snd (process_audio sin n sr (PolyphonicDSP (vs ++ [v]))) =
  snd (process_audio sin n sr v).
Proof.
  simpl.
  pose proof (poly_run_last (process_audio sin n sr) vs v (repeat 0 n) n) as H.
  destruct (poly_run _ _ _) as [vs' mixed]. simpl in H.
  rewrite H.
  - apply firstn_all2. rewrite process_audio_length. lia.
  - apply Forall_forall. intros w _. apply process_audio_length.
  - apply repeat_length.
  - apply process_audio_length.
Qed.

(** ** The factory *)

Lemma factory_of_snoc regs n c :
  factory_of (regs ++ [(n, c)]) = register_dsp n c (factory_of regs).
Proof. unfold factory_of. rewrite foldl_app. reflexivity. Qed.

Lemma factory_of_unregistered (regs : list (string * DSPCreator)) name :
  name ∉ map fst regs -> factory_of regs !! name = None.
Proof.
  induction regs as [|[n c] regs IH] using rev_ind; intros Hn; [reflexivity|].
  rewrite map_app in Hn. simpl in Hn.
  rewrite factory_of_snoc. unfold register_dsp.
  rewrite lookup_insert_ne by set_solver. apply IH. set_solver.
Qed.

Lemma factory_of_last pre name (c : DSPCreator) (post : list (string * DSPCreator)) :
  name ∉ map fst post -> factory_of (pre ++ (name, c) :: post) !! name = Some c.
Proof.
  induction post as [|[n c'] post IH] using rev_ind; intros Hn.
  - rewrite factory_of_snoc. apply lookup_insert_eq.
  - rewrite map_app in Hn. simpl in Hn.
    rewrite app_comm_cons, app_assoc, factory_of_snoc. unfold register_dsp.
    rewrite lookup_insert_ne by set_solver. apply IH. set_solver.
Qed.

(** ** The worker pool *)

Lemma tm_init_threads n tm :
  threads (tm_init n tm) = threads tm ++ seq (length (threads tm)) n.
Proof.
  unfold tm_init. simpl. generalize (threads tm) as ts.
  induction n as [|n IH]; intros ts; simpl; [rewrite app_nil_r; reflexivity|].
  rewrite IH, <- app_assoc. simpl. rewrite length_app. simpl.
  replace (length ts + 1)%nat with (S (length ts)) by lia. reflexivity.
Qed.

(** * Claims *)

(** ** C1: polyphonic mixing *)

(** C1 (counterexample): the public output of a [PolyphonicDSP] is not the
    sample-wise sum of its voices' renderings.  Two [SawWave] voices at
    their defaults, one frame at 48 kHz: each voice renders -1, the
    node outputs -1 where the sum is -2. *)
Lemma C1_polyphonic_not_summed :
  Forall2 Qeq (snd (process_audio no_sin 1 48000
                      (PolyphonicDSP [new_SawWave; new_SawWave]))) [-1] /\
  Forall2 Qeq (spec_polyphonic_output no_sin 1 48000 [new_SawWave; new_SawWave]) [-2] /\
  ~ (forall sin nframes sr vs,
       Forall2 Qeq (snd (process_audio sin nframes sr (PolyphonicDSP vs)))
                   (spec_polyphonic_output sin nframes sr vs)).
Proof.
  split; [vm_compute; repeat constructor; discriminate|].
  split; [vm_compute; repeat constructor; discriminate|].
  intros H. specialize (H no_sin 1%nat 48000 [new_SawWave; new_SawWave]).
  revert H. vm_compute. intros H. inversion H as [|x y l l' Hxy _]. subst.
  revert Hxy. vm_compute. intros Hxy. discriminate.
Qed.

(** ** C2: worker pool start *)

(** C2 (counterexample): [init(0)] on a fresh pool spawns no worker; there
    is no fallback to one thread. *)
Lemma C2_init_zero_spawns_none :
  threads (tm_init 0 tm_initial) = [] /\
  ~ (forall n tm, length (threads (tm_init n tm)) = (length (threads tm) + Nat.max n 1)%nat).
Proof.
  split; [reflexivity|].
  intros H. specialize (H 0%nat tm_initial). discriminate H.
Qed.

(** C2 (amended): [init(thread_count)] appends exactly [thread_count] new
    workers to the pool (none when zero is requested); on a fresh pool it
    leaves exactly [thread_count] workers. *)
Theorem C2_init_spawns_exactly n tm :
  length (threads (tm_init n tm)) = (length (threads tm) + n)%nat /\
  length (threads (tm_init n tm_initial)) = n.
Proof.
  rewrite !tm_init_threads, !length_app, !length_seq. simpl. lia.
Qed.

(** ** C3: endpoint construction and port registration *)

(** C3 (failing input): when every port allocation fails, the generic
    [JackClient] constructor still completes: it registers [output0], stores
    the null handle, activates, and never closes the connection.  The
    earlier constructor (part_002) on the same server closes the
    connection and throws. *)
Lemma C3_port_failure_ignored :
  JackClient_new server_without_ports "DearJack1" new_SinOsc =
    ([CallClientOpen "DearJack1"; CallSetProcessCallback; CallOnShutdown;
      CallPortRegister "output0" JackPortIsOutput; CallActivate],
     inl {| client_open := true; input_ports := []; output_ports := [None];
            jc_dsp := new_SinOsc; jc_name := "DearJack1" |}) /\
  JackClient_single_new server_without_ports "DearJack" =
    ([CallClientOpen "DearJack"; CallSetProcessCallback; CallOnShutdown;
      CallPortRegister "output" JackPortIsOutput; CallClientClose],
     inr (RuntimeError "Failed to register JACK port")).
Proof. split; reflexivity. Qed.

(** ** C4: the phase accumulator *)

(** C4 (counterexample): a [SawWave] at 20000 Hz (the top of the GUI
    slider) on an 8000 Hz server, starting at phase 0: the increment is
    2.5 * TWO_PI, one subtraction leaves the phase at 1.5 * TWO_PI after
    the first sample. *)
Lemma C4_phase_escapes :
  ~ (forall sin d p f sr n, osc_state d = Some (p, f) -> 0 < sr ->
       0 <= p < TWO_PI ->
       forall q f', osc_state (fst (process_audio sin n sr d)) = Some (q, f') ->
       0 <= q < TWO_PI).
Proof.
  intros H.
  specialize (H no_sin (SawWave 0 20000) 0 20000 8000 1%nat eq_refl).
  assert (Hsr : 0 < 8000) by lra.
  assert (Hp : 0 <= 0 < TWO_PI) by (pose proof TWO_PI_pos; lra).
  specialize (H Hsr Hp _ _ eq_refl). revert H. vm_compute. intros [_ H]. discriminate H.
Qed.

(** C4 (amended): for every oscillator node, the phase is advanced by
    [phase_increment f sr = TWO_PI * f / sr] per sample with one
    conditional subtraction of [TWO_PI]; when the phase starts in
    [0, TWO_PI) and [0 <= f < sr] (so the increment is in [0, TWO_PI)),
    the phase after every sample of the call is in [0, TWO_PI). *)
Theorem C4_phase_wrapped sin d p f sr n :
  osc_state d = Some (p, f) -> 0 < sr -> 0 <= f < sr -> 0 <= p < TWO_PI ->
  osc_state (fst (process_audio sin n sr d)) =
    Some (phase_after (phase_increment f sr) p n, f) /\
  (forall k, phase_after (phase_increment f sr) p (S k) =
             advance (phase_increment f sr) (phase_after (phase_increment f sr) p k)) /\
  (forall k, (k <= n)%nat -> 0 <= phase_after (phase_increment f sr) p k < TWO_PI).
Proof.
  intros Hd Hsr Hf Hp.
  split; [|split].
  - rewrite (process_audio_osc sin n sr d p f Hd). simpl.
    rewrite osc_loop_phase. eapply osc_state_with_phase; exact Hd.
  - intros k. apply phase_after_S.
  - intros k _. apply phase_after_range; [apply phase_increment_range|]; assumption.
Qed.

Lemma C4_phase_wrapped_witness :
  osc_state new_SinOsc = Some (0, 440) /\ 0 < 48000 /\ 0 <= 440 < 48000 /\
  0 <= 0 < TWO_PI /\
  osc_state (fst (process_audio no_sin 64 48000 new_SinOsc)) =
    Some (phase_after (phase_increment 440 48000) 0 64, 440) /\
  (forall k, phase_after (phase_increment 440 48000) 0 (S k) =
             advance (phase_increment 440 48000) (phase_after (phase_increment 440 48000) 0 k)) /\
  (forall k, (k <= 64)%nat -> 0 <= phase_after (phase_increment 440 48000) 0 k < TWO_PI).
Proof.
  assert (Hp : 0 <= 0 < TWO_PI) by (pose proof TWO_PI_pos; lra).
  refine (conj eq_refl (conj _ (conj _ (conj Hp _)))); [lra|lra|].
  apply (C4_phase_wrapped no_sin new_SinOsc 0 440 48000 64); [reflexivity|lra|lra|exact Hp].
Defined.

(** ** C5: one snapshot per buffer *)

(** C5: whatever [set_parameter] calls a control thread interleaves with
    an oscillator's [process_audio] (batch [w0] between the loads, batch
    [ctrl_i] before sample [i]), the rendered buffer is the sample loop run
    with the single increment [TWO_PI * f / sr] from the frequency [f]
    loaded at buffer start and the waveform of the values loaded then, and
    the phase the call stores is the one that loop reaches. *)
Theorem C5_single_snapshot sin w0 ctrl n sr d p f :
  osc_state d = Some (p, f) ->
  snd (process_audio_interleaved sin w0 ctrl n sr d) =
    fst (osc_loop (osc_wave sin (apply_writes w0 d)) (phase_increment f sr) p n) /\
  option_map fst (osc_state (fst (process_audio_interleaved sin w0 ctrl n sr d))) =
    Some (phase_after (phase_increment f sr) p n).
Proof.
  intros Hd. unfold process_audio_interleaved. rewrite Hd.
  pose proof (osc_loop_interleaved_spec (osc_wave sin (apply_writes w0 d))
                (phase_increment f sr) p ctrl (apply_writes w0 d) n) as Hspec.
  destruct (osc_loop_interleaved _ _ _ _ _ _) as [[out p'] d2].
  destruct Hspec as (Hout & Hp' & Hst). simpl. split; [exact Hout|].
  destruct (apply_writes_osc_state w0 d p f Hd) as [f1 H1].
  destruct (Hst p f1 H1) as [f2 H2].
  rewrite (osc_state_with_phase d2 p f2 p' H2). simpl. congruence.
Qed.

Lemma C5_single_snapshot_witness :
  osc_state new_SinOsc = Some (0, 440) /\
  snd (process_audio_interleaved no_sin [("frequency", PFloat 880)]
         [[("amplitude", PFloat 1)]; [("frequency", PFloat 220)]] 4 48000 new_SinOsc) =
    fst (osc_loop (osc_wave no_sin (apply_writes [("frequency", PFloat 880)] new_SinOsc))
                  (phase_increment 440 48000) 0 4) /\
  option_map fst (osc_state (fst (process_audio_interleaved no_sin [("frequency", PFloat 880)]
         [[("amplitude", PFloat 1)]; [("frequency", PFloat 220)]] 4 48000 new_SinOsc))) =
    Some (phase_after (phase_increment 440 48000) 0 4).
Proof.
  split; [reflexivity|].
  apply (C5_single_snapshot no_sin [("frequency", PFloat 880)]
           [[("amplitude", PFloat 1)]; [("frequency", PFloat 220)]] 4 48000 new_SinOsc 0 440).
  reflexivity.
Defined.

(** ** C6: unknown parameter names *)

(** C6: on a well-formed node, for a name outside its parameter set,
    [get_parameter] throws [runtime_error("Unknown parameter: " + name)]
    and [set_parameter] with any value returns normally and leaves the
    node (stored parameters, phases, voices) unchanged. *)
Theorem C6_unknown_parameter d name v :
  wf d -> name ∉ get_parameter_names d ->
  get_parameter name d = inr (RuntimeError ("Unknown parameter: " +:+ name)) /\
  set_parameter name v d = (d, None).
Proof.
  intros Hwf Hn. split.
  - apply get_parameter_unknown; assumption.
  - apply set_parameter_unknown_noop; assumption.
Qed.

Lemma C6_unknown_parameter_witness :
  wf poly_sines /\ ("gain" ∉ get_parameter_names poly_sines) /\
  get_parameter "gain" poly_sines = inr (RuntimeError ("Unknown parameter: " +:+ "gain")) /\
  set_parameter "gain" (PInt 3) poly_sines = (poly_sines, None).
Proof.
  assert (Hwf : wf poly_sines) by (repeat constructor).
  assert (Hn : "gain" ∉ get_parameter_names poly_sines)
    by (vm_compute; not_in_names).
  split; [exact Hwf|]. split; [exact Hn|].
  apply (C6_unknown_parameter poly_sines "gain" (PInt 3) Hwf Hn).
Defined.

(** ** C7: the factory *)

(** C7: [create_dsp] on a factory built by [register_dsp] calls throws
    [runtime_error("Unknown DSP type: " + name)] and calls no creator when
    [name] was never registered, and otherwise returns what the creator
    registered last under [name] constructs. *)
Theorem C7_create_dsp (regs : list (string * DSPCreator)) name :
  (name ∉ map fst regs ->
   create_dsp (factory_of regs) name = inr (RuntimeError ("Unknown DSP type: " +:+ name))) /\
  (forall pre c post, regs = pre ++ (name, c) :: post -> name ∉ map fst post ->
   create_dsp (factory_of regs) name = inl (c tt)).
Proof.
  split.
  - intros Hn. unfold create_dsp. rewrite factory_of_unregistered by exact Hn. reflexivity.
  - intros pre c post -> Hn. unfold create_dsp. rewrite factory_of_last by exact Hn.
    reflexivity.
Qed.

Lemma C7_create_dsp_witness :
  (("DoesNotExist" ∉ map fst main_registrations) /\
   create_dsp (factory_of main_registrations) "DoesNotExist" =
     inr (RuntimeError ("Unknown DSP type: " +:+ "DoesNotExist"))) /\
  (("SawWave" ∉ map fst (@nil (string * DSPCreator))) /\
   create_dsp (factory_of main_registrations) "SawWave" = inl new_SawWave).
Proof.
  assert (H1 : "DoesNotExist" ∉ map fst main_registrations)
    by (vm_compute; not_in_names).
  assert (H2 : "SawWave" ∉ map fst (@nil (string * DSPCreator))) by (apply not_elem_of_nil).
  split; split; [exact H1| |exact H2|].
  - apply (proj1 (C7_create_dsp main_registrations "DoesNotExist") H1).
  - apply (proj2 (C7_create_dsp main_registrations "SawWave")
             [("SinOsc", fun _ => new_SinOsc); ("SquareWave", fun _ => new_SquareWave)]
             (fun _ => new_SawWave) []); [reflexivity|exact H2].
Defined.

(** ** C8: Square and Saw output ranges *)

(** C8 (counterexample): a [SawWave] at 20000 Hz on an 8000 Hz server,
    starting from phase 0 (its constructor's), renders [-1; 2]: the second
    sample is outside [-1, 1]. *)
Lemma C8_saw_out_of_range :
  Forall2 Qeq (snd (process_audio no_sin 2 8000 (SawWave 0 20000))) [-1; 2] /\
  ~ (forall sin p f sr n, 0 < sr ->
       Forall (fun x => -1 <= x <= 1) (snd (process_audio sin n sr (SawWave p f)))).
Proof.
  split; [vm_compute; repeat constructor; discriminate|].
  intros H. specialize (H no_sin 0 20000 8000 2%nat ltac:(lra)).
  revert H. vm_compute. intros H.
  inversion H as [|x l _ Hl]. subst. inversion Hl as [|y l' [_ Hy] _]. subst.
  apply Hy. reflexivity.
Qed.

(** C8 (amended): every [SquareWave] sample is exactly +1 or -1, for any
    phase, frequency and sample rate; every [SawWave] sample is in
    [-1, 1] when the phase starts in [0, TWO_PI) and
    [0 <= frequency < sample_rate]. *)
Theorem C8_square_saw_range sin p f sr n :
  Forall (fun x => x = 1 \/ x = -1) (snd (process_audio sin n sr (SquareWave p f))) /\
  (0 < sr -> 0 <= f < sr -> 0 <= p < TWO_PI ->
   Forall (fun x => -1 <= x <= 1) (snd (process_audio sin n sr (SawWave p f)))).
Proof.
  split.
  - rewrite (process_audio_osc sin n sr (SquareWave p f) p f eq_refl). simpl.
    apply (osc_loop_Forall (fun _ => True)); [exact I|intros; exact I|].
    intros q _. unfold square_wave. destruct (Qltb q M_PI); auto.
  - intros Hsr Hf Hp.
    rewrite (process_audio_osc sin n sr (SawWave p f) p f eq_refl). simpl.
    apply (osc_loop_Forall (fun q => 0 <= q < TWO_PI)); [exact Hp| |].
    + intros q Hq. apply advance_range; [apply phase_increment_range|]; assumption.
    + intros q [Hq1 Hq2]. unfold saw_wave. pose proof TWO_PI_pos as HT.
      assert (H0 : 0 <= q / TWO_PI).
      { apply Qle_shift_div_l; [exact HT|]. rewrite Qmult_0_l. exact Hq1. }
      assert (H1 : q / TWO_PI <= 1).
      { apply Qle_shift_div_r; [exact HT|]. rewrite Qmult_1_l. lra. }
      lra.
Qed.

Lemma C8_square_saw_range_witness :
  (0 < 48000 /\ 0 <= 440 < 48000 /\ 0 <= 0 < TWO_PI) /\
  Forall (fun x => x = 1 \/ x = -1) (snd (process_audio no_sin 16 48000 (SquareWave 0 440))) /\
  Forall (fun x => -1 <= x <= 1) (snd (process_audio no_sin 16 48000 (SawWave 0 440))).
Proof.
  assert (Hp : 0 <= 0 < TWO_PI) by (pose proof TWO_PI_pos; lra).
  assert (Hsr : 0 < 48000) by lra.
  assert (Hf : 0 <= 440 < 48000) by lra.
  split; [split; [exact Hsr|split; [exact Hf|exact Hp]]|].
  split.
  - apply (proj1 (C8_square_saw_range no_sin 0 440 48000 16)).
  - apply (proj2 (C8_square_saw_range no_sin 0 440 48000 16) Hsr Hf Hp).
Defined.

(** ** C9: parameter round trip *)

(** C9: on a well-formed node, for every name in its parameter set and
    every float [x], [set_parameter(name, x)] returns normally and a
    following [get_parameter(name)] returns exactly [x]. *)
Theorem C9_parameter_roundtrip d name x :
  wf d -> name ∈ get_parameter_names d ->
  snd (set_parameter name (PFloat x) d) = None /\
  get_parameter name (fst (set_parameter name (PFloat x) d)) = inl (PFloat x).
Proof. apply set_get_roundtrip. Qed.

Lemma C9_parameter_roundtrip_witness :
  wf poly_sines /\ ("amplitude" ∈ get_parameter_names poly_sines) /\
  snd (set_parameter "amplitude" (PFloat (1 # 4)) poly_sines) = None /\
  get_parameter "amplitude" (fst (set_parameter "amplitude" (PFloat (1 # 4)) poly_sines)) =
    inl (PFloat (1 # 4)).
Proof.
  assert (Hwf : wf poly_sines) by (repeat constructor).
  assert (Hn : "amplitude" ∈ get_parameter_names poly_sines).
  { simpl. apply elem_of_cons. right. apply elem_of_cons. left. reflexivity. }
  split; [exact Hwf|]. split; [exact Hn|].
  apply (C9_parameter_roundtrip poly_sines "amplitude" (1 # 4) Hwf Hn).
Defined.

(** ** C10: wrong variant alternative *)

(** C10: [SinOsc::set_parameter] with ["frequency"] or ["amplitude"] and an
    int or text value throws [bad_variant_access] from [std::get<float>]
    before any store: the node is unchanged. *)
Theorem C10_wrong_alternative p f a (i : Z) (t : string) :
  set_parameter "frequency" (PInt i) (SinOsc p f a) = (SinOsc p f a, Some BadVariantAccess) /\
  set_parameter "frequency" (PText t) (SinOsc p f a) = (SinOsc p f a, Some BadVariantAccess) /\
  set_parameter "amplitude" (PInt i) (SinOsc p f a) = (SinOsc p f a, Some BadVariantAccess) /\
  set_parameter "amplitude" (PText t) (SinOsc p f a) = (SinOsc p f a, Some BadVariantAccess).
Proof. repeat split. Qed.

(** * Further properties of the code *)

(** ** Helper lemmas *)

Lemma list_fmap_map {A B} (f : A -> B) (l : list A) : f <$> l = map f l.
Proof. induction l as [|x l IH]; [reflexivity|]. rewrite fmap_cons, IH. reflexivity. Qed.

Lemma get_registered_dsps_elem m x :
  x ∈ get_registered_dsps m <-> is_Some (m !! x).
Proof.
  unfold get_registered_dsps. rewrite <- list_fmap_map, list_elem_of_fmap. split.
  - intros [[k v] [-> Hin]]. apply elem_of_map_to_list in Hin. simpl. eauto.
  - intros [v Hv]. exists (x, v). split; [reflexivity|]. apply elem_of_map_to_list, Hv.
Qed.

Lemma factory_of_is_Some (regs : list (string * DSPCreator)) x :
  is_Some (factory_of regs !! x) <-> x ∈ map fst regs.
Proof.
  induction regs as [|[n c] regs IH] using rev_ind.
  - unfold factory_of. simpl. rewrite lookup_empty. split.
    + intros [? H]; discriminate.
    + intros H. apply elem_of_nil in H. contradiction.
  - rewrite factory_of_snoc. unfold register_dsp.
    rewrite lookup_insert_is_Some', IH, map_app. simpl. set_solver.
Qed.

Lemma factory_of_lookup (regs : list (string * DSPCreator)) x c :
  factory_of regs !! x = Some c -> (x, c) ∈ regs.
Proof.
  induction regs as [|[n c'] regs IH] using rev_ind; intros H.
  - unfold factory_of in H. simpl in H. rewrite lookup_empty in H. discriminate.
  - rewrite factory_of_snoc in H. unfold register_dsp in H.
    apply elem_of_app. destruct (String.eqb_spec n x) as [->|Hne].
    + rewrite lookup_insert_eq in H. inversion H. subst. right. left.
    + rewrite lookup_insert_ne in H by exact Hne. left. apply IH, H.
Qed.

Lemma Forall_repeat_same {A} (P : A -> Prop) (x : A) n :
  P x -> Forall P (repeat x n).
Proof. intros Hx. induction n as [|n IH]; simpl; constructor; assumption. Qed.

Lemma PolyphonicDSP_new_ok (v : DSP) n :
  PolyphonicDSP_new (fun _ => inl v) n = inl (PolyphonicDSP (repeat v n)).
Proof.
  unfold PolyphonicDSP_new.
  assert (H : forall k, (fix build (k : nat) : list DSP + exn :=
             match k with
             | O => inl []
             | S k' => match (fun _ : unit => inl v : DSP + exn) tt with
                       | inr e => inr e
                       | inl v => match build k' with inl vs => inl (v :: vs) | inr e => inr e end
                       end
             end) k = inl (repeat v k)).
  { induction k as [|k IH]; [reflexivity|]. simpl. rewrite IH. reflexivity. }
  rewrite H. reflexivity.
Qed.

Lemma add_client_dsp_registered creators selected c :
  creators !! selected = Some c ->
  add_client_dsp creators selected = inl (PolyphonicDSP (repeat (c tt) 8)).
Proof.
  intros H. unfold add_client_dsp, create_dsp. rewrite H. apply PolyphonicDSP_new_ok.
Qed.

Lemma wf_repeat v n :
  wf v -> wf (PolyphonicDSP (repeat v (S n))).
Proof.
  intros Hv. simpl. constructor; [exact Hv| apply Forall_repeat_same, Hv|].
  apply Forall_repeat_same. reflexivity.
Qed.

(** Voices of a well-formed polyphonic node are well formed and share
    voice 0's parameter names. *)
Lemma wf_voices vs :
  wf (PolyphonicDSP vs) ->
  Forall (fun w => wf w /\ get_parameter_names w = get_parameter_names (PolyphonicDSP vs)) vs.
Proof.
  intros Hwf. inversion Hwf as [| | |v0 vs0 Hv0 Hvs Hnames]; subst. simpl.
  constructor; [split; [exact Hv0| reflexivity]|].
  pose proof (proj2 (Forall_and _ _) (conj Hvs Hnames)) as H. exact H.
Qed.

Lemma wf_of_voices v vs :
  wf v -> Forall (fun w => wf w /\ get_parameter_names w = get_parameter_names v) vs ->
  wf (PolyphonicDSP (v :: vs)).
Proof.
  intros Hv Hvs. apply Forall_and in Hvs as [H1 H2]. constructor; assumption.
Qed.

Lemma get_parameter_listed name d :
  wf d -> name ∈ get_parameter_names d -> exists f, get_parameter name d = inl (PFloat f).
Proof.
  induction d as [p f a|p f|p f|vs IH] using DSP_nested_ind; intros Hwf Hn; simpl in *.
  - names_cases Hn; eauto.
  - names_cases Hn; eauto.
  - names_cases Hn; eauto.
  - inversion Hwf as [| | |v0 vs0 Hv0 Hvs Hnames]; subst.
    apply Forall_cons in IH as [IH0 _]. exact (IH0 Hv0 Hn).
Qed.

(** Any [set_parameter] call keeps a well-formed node well formed, with
    the same parameter names. *)
Lemma set_parameter_wf name v d :
  wf d -> wf (fst (set_parameter name v d)) /\
  get_parameter_names (fst (set_parameter name v d)) = get_parameter_names d.
Proof.
  induction d as [p f a|p f|p f|vs IH] using DSP_nested_ind; intros Hwf; simpl.
  - repeat (destruct (String.eqb _ _)); try destruct (get_float v);
      simpl; split; constructor || reflexivity.
  - repeat (destruct (String.eqb _ _)); try destruct (get_float v);
      simpl; split; constructor || reflexivity.
  - repeat (destruct (String.eqb _ _)); try destruct (get_float v);
      simpl; split; constructor || reflexivity.
  - pose proof (wf_voices vs Hwf) as Hvs.
    inversion Hwf as [| | |v0 vs0 Hv0 _ _]; subst.
    assert (Hall : Forall (fun w => wf w /\ get_parameter_names w = get_parameter_names v0
                     /\ wf (fst (set_parameter name v w))
                     /\ get_parameter_names (fst (set_parameter name v w)) =
                        get_parameter_names w) (v0 :: vs0)).
    { apply Forall_forall. intros w Hw.
      rewrite Forall_forall in IH, Hvs. destruct (Hvs w Hw) as [Hw1 Hw2].
      destruct (IH w Hw Hw1) as [Hw3 Hw4]. simpl in Hw2. auto. }
    simpl. clear IH Hvs Hwf.
    apply Forall_cons in Hall as [[_ [_ [Ha1 Ha2]]] Hrest].
    destruct (set_parameter name v v0) as [v0' [e|]] eqn:E0; simpl in *.
    + split; [|exact Ha2]. apply wf_of_voices; [exact Ha1|].
      eapply Forall_impl; [exact Hrest|]. intros w (Hw1 & Hw2 & _). split; congruence.
    + assert (Hgen : forall ws, Forall (fun w => wf w /\ get_parameter_names w = get_parameter_names v0
                     /\ wf (fst (set_parameter name v w))
                     /\ get_parameter_names (fst (set_parameter name v w)) =
                        get_parameter_names w) ws ->
              Forall (fun w => wf w /\ get_parameter_names w = get_parameter_names v0)
                     (fst (fan_out (set_parameter name v) ws))).
      { induction 1 as [|w ws (Hw1 & Hw2 & Hw3 & Hw4) Hws IHws]; simpl; [constructor|].
        destruct (set_parameter name v w) as [w' [e|]]; simpl in *.
        - constructor; [split; congruence|].
          eapply Forall_impl; [exact Hws|]. intros u (? & ? & _). auto.
        - destruct (fan_out (set_parameter name v) ws) as [ws' e'] eqn:Ef. simpl in *.
          constructor; [split; congruence| exact IHws]. }
      specialize (Hgen vs0 Hrest).
      destruct (fan_out (set_parameter name v) vs0) as [vs' e'] eqn:Ef. simpl in *.
      split; [|exact Ha2]. apply wf_of_voices; [exact Ha1|].
      eapply Forall_impl; [exact Hgen|]. intros w [Hw1 Hw2]. split; congruence.
Qed.

Lemma poly_run_fst proc vs mixed :
  fst (poly_run proc vs mixed) = map (fun v => fst (proc v)) vs.
Proof.
  revert mixed; induction vs as [|v vs IH]; intros mixed; simpl; [reflexivity|].
  destruct (proc v) as [v' out]. specialize (IH (write_buffer mixed out)).
  destruct (poly_run proc vs (write_buffer mixed out)). simpl in *. congruence.
Qed.

(** A polyphonic node processes every voice, and its output is the last
    voice's rendering (zeros when it has no voice). *)
Lemma process_audio_poly sin n sr vs :
  process_audio sin n sr (PolyphonicDSP vs) =
  (PolyphonicDSP (map (fun v => fst (process_audio sin n sr v)) vs),
   match last vs with
   | Some v => snd (process_audio sin n sr v)
   | None => repeat 0 n
   end).
Proof.
  pose proof (polyphonic_output_last_voice sin n sr) as Hlast.
  pose proof (poly_run_fst (process_audio sin n sr) vs (repeat 0 n)) as Hfst.
  destruct vs as [|v vs _] using rev_ind.
  - simpl. rewrite firstn_all2 by (rewrite repeat_length; lia). reflexivity.
  - rewrite last_snoc, <- (Hlast vs v). simpl in *.
    destruct (poly_run _ _ _) as [vs' mixed]. simpl in *. congruence.
Qed.

Lemma osc_loop_app wave inc p n m :
  osc_loop wave inc p (n + m) =
  (fst (osc_loop wave inc p n) ++ fst (osc_loop wave inc (snd (osc_loop wave inc p n)) m),
   snd (osc_loop wave inc (snd (osc_loop wave inc p n)) m)).
Proof.
  revert p; induction n as [|n IH]; intros p; simpl.
  - destruct (osc_loop wave inc p m); reflexivity.
  - rewrite IH. destruct (osc_loop wave inc (advance inc p) n) as [o1 p1]. simpl.
    destruct (osc_loop wave inc p1 m); reflexivity.
Qed.

Lemma osc_wave_with_phase sin d q : osc_wave sin (with_phase d q) = osc_wave sin d.
Proof. destruct d; reflexivity. Qed.

Lemma with_phase_twice d q r : with_phase (with_phase d q) r = with_phase d r.
Proof. destruct d; reflexivity. Qed.

Lemma get_num_inputs_zero d : get_num_inputs d = 0%nat.
Proof. induction d as [| | |vs IH] using DSP_nested_ind; [reflexivity..|].
  destruct vs as [|v vs]; [reflexivity|]. apply Forall_cons in IH as [IH _]. exact IH.
Qed.

Lemma get_num_outputs_wf d : wf d -> get_num_outputs d = 1%nat.
Proof. induction 1; [reflexivity..|]. exact IHwf. Qed.

(** ** The factory *)

(** X1: [get_registered_dsps] lists every registered name exactly once,
    and nothing else, however often a name was registered. *)
Theorem X1_registered_dsps (regs : list (string * DSPCreator)) :
  NoDup (get_registered_dsps (factory_of regs)) /\
  (forall x, x ∈ get_registered_dsps (factory_of regs) <-> x ∈ map fst regs).
Proof.
  split.
  - unfold get_registered_dsps. rewrite <- list_fmap_map. apply NoDup_fst_map_to_list.
  - intros x. rewrite get_registered_dsps_elem. apply factory_of_is_Some.
Qed.

(** X2: after [register_dsp name creator], [create_dsp name] calls that
    creator (a second registration replaces the first), and every other
    name is created as before. *)
Theorem X2_create_after_register m n (c : DSPCreator) name :
  create_dsp (register_dsp n c m) name =
  if String.eqb name n then inl (c tt) else create_dsp m name.
Proof.
  unfold create_dsp, register_dsp.
  destruct (String.eqb_spec name n) as [->|Hne].
  - rewrite lookup_insert_eq. reflexivity.
  - rewrite lookup_insert_ne by congruence. reflexivity.
Qed.

(** ** Polyphonic construction and the "Add JackClient" action *)

(** X3: the "Add JackClient" action builds, for a registered type, an
    8-voice [PolyphonicDSP] whose voices are fresh products of that type's
    creator; for an unregistered type it throws "Unknown DSP type". *)
Theorem X3_add_client_dsp creators selected :
  match creators !! selected with
  | Some c => add_client_dsp creators selected = inl (PolyphonicDSP (repeat (c tt) 8))
  | None => add_client_dsp creators selected =
              inr (RuntimeError ("Unknown DSP type: " +:+ selected))
  end.
Proof.
  destruct (creators !! selected) as [c|] eqn:E.
  - apply add_client_dsp_registered, E.
  - unfold add_client_dsp, create_dsp. rewrite E. reflexivity.
Qed.

(** X4: whatever entry of the DSP type drop-down (built from
    [get_registered_dsps]) is selected, "Add JackClient" yields a
    well-formed 8-voice node, provided the creators produce well-formed
    nodes. *)
Theorem X4_dropdown_selection (regs : list (string * DSPCreator)) (idx : nat) name :
  Forall (fun r => wf (snd r tt)) regs ->
  get_registered_dsps (factory_of regs) !! idx = Some name ->
  exists v, add_client_dsp (factory_of regs) name = inl (PolyphonicDSP (repeat v 8)) /\
            wf (PolyphonicDSP (repeat v 8)).
Proof.
  intros Hregs Hidx.
  assert (Hin : name ∈ get_registered_dsps (factory_of regs))
    by (eapply list_elem_of_lookup_2; exact Hidx).
  apply get_registered_dsps_elem in Hin as [c Hc].
  exists (c tt). split; [apply add_client_dsp_registered, Hc|]. apply wf_repeat.
  apply factory_of_lookup in Hc. rewrite Forall_forall in Hregs.
  exact (Hregs _ Hc).
Qed.

Lemma X4_dropdown_selection_witness :
  Forall (fun r => wf (snd r tt)) main_registrations /\
  get_registered_dsps (factory_of main_registrations) !! 2%nat = Some "SawWave" /\
  exists v, add_client_dsp (factory_of main_registrations) "SawWave" =
              inl (PolyphonicDSP (repeat v 8)) /\ wf (PolyphonicDSP (repeat v 8)).
Proof.
  assert (H1 : Forall (fun r => wf (snd r tt)) main_registrations) by (repeat constructor).
  assert (H2 : get_registered_dsps (factory_of main_registrations) !! 2%nat = Some "SawWave")
    by (vm_compute; reflexivity).
  split; [exact H1|]. split; [exact H2|].
  exact (X4_dropdown_selection main_registrations 2 "SawWave" H1 H2).
Defined.

(** ** Parameters of polyphonic and well-formed nodes *)

(** X5: a float [set_parameter] on a well-formed polyphonic node with one
    of its parameter names reaches every voice: no exception, the same
    number of voices, and every voice then reads back the new value. *)
Theorem X5_polyphonic_set_all vs name x :
  wf (PolyphonicDSP vs) -> name ∈ get_parameter_names (PolyphonicDSP vs) ->
  exists vs', set_parameter name (PFloat x) (PolyphonicDSP vs) = (PolyphonicDSP vs', None) /\
              length vs' = length vs /\
              Forall (fun w => get_parameter name w = inl (PFloat x)) vs'.
Proof.
  intros Hwf Hn. pose proof (wf_voices vs Hwf) as Hvs.
  simpl. rewrite fan_out_all_ok.
  - eexists. split; [reflexivity|]. split; [apply length_map|].
    apply Forall_map. eapply Forall_impl; [exact Hvs|].
    intros w [Hw1 Hw2]. apply set_get_roundtrip; [exact Hw1|]. rewrite Hw2. exact Hn.
  - apply Forall_forall. intros w _. apply set_parameter_float_ok.
Qed.

Lemma X5_polyphonic_set_all_witness :
  wf poly_sines /\ ("frequency" ∈ get_parameter_names poly_sines) /\
  exists vs', set_parameter "frequency" (PFloat 220) poly_sines = (PolyphonicDSP vs', None) /\
              length vs' = length [new_SinOsc; new_SinOsc; new_SinOsc] /\
              Forall (fun w => get_parameter "frequency" w = inl (PFloat 220)) vs'.
Proof.
  assert (Hwf : wf poly_sines) by (repeat constructor).
  assert (Hn : "frequency" ∈ get_parameter_names poly_sines)
    by (simpl; apply elem_of_cons; left; reflexivity).
  split; [exact Hwf|]. split; [exact Hn|].
  exact (X5_polyphonic_set_all [new_SinOsc; new_SinOsc; new_SinOsc] "frequency" 220 Hwf Hn).
Defined.

(** X6: on any well-formed node, setting one of its parameters to an int
    or a string throws [bad_variant_access] and leaves the node unchanged;
    for a polyphonic node voice 0 throws before any voice is written. *)
Theorem X6_wrong_alternative d name v :
  wf d -> name ∈ get_parameter_names d -> (forall f, v <> PFloat f) ->
  set_parameter name v d = (d, Some BadVariantAccess).
Proof.
  intros Hwf Hn Hv.
  assert (Hg : get_float v = inr BadVariantAccess)
    by (destruct v as [f| |]; [destruct (Hv f eq_refl)|reflexivity..]).
  revert Hwf Hn.
  induction d as [p f a|p f|p f|vs IH] using DSP_nested_ind; intros Hwf Hn; simpl in *.
  - names_cases Hn; simpl; rewrite Hg; reflexivity.
  - names_cases Hn; simpl; rewrite Hg; reflexivity.
  - names_cases Hn; simpl; rewrite Hg; reflexivity.
  - inversion Hwf as [| | |v0 vs0 Hv0 Hvs Hnames]; subst.
    apply Forall_cons in IH as [IH0 _]. simpl. rewrite (IH0 Hv0 Hn). reflexivity.
Qed.

Lemma X6_wrong_alternative_witness :
  wf poly_sines /\ ("frequency" ∈ get_parameter_names poly_sines) /\
  (forall f, PInt 3 <> PFloat f) /\
  set_parameter "frequency" (PInt 3) poly_sines = (poly_sines, Some BadVariantAccess).
Proof.
  assert (Hwf : wf poly_sines) by (repeat constructor).
  assert (Hn : "frequency" ∈ get_parameter_names poly_sines)
    by (simpl; apply elem_of_cons; left; reflexivity).
  assert (Hv : forall f, PInt 3 <> PFloat f) by (intros f; discriminate).
  split; [exact Hwf|]. split; [exact Hn|]. split; [exact Hv|].
  exact (X6_wrong_alternative poly_sines "frequency" (PInt 3) Hwf Hn Hv).
Defined.

(** X7: whatever [set_parameter] is called with, a well-formed node stays
    well formed and keeps its parameter names. *)
Theorem X7_set_parameter_keeps_wf d name v :
  wf d -> wf (fst (set_parameter name v d)) /\
  get_parameter_names (fst (set_parameter name v d)) = get_parameter_names d.
Proof. apply set_parameter_wf. Qed.

Lemma X7_set_parameter_keeps_wf_witness :
  wf poly_sines /\ wf (fst (set_parameter "amplitude" (PText "x") poly_sines)) /\
  get_parameter_names (fst (set_parameter "amplitude" (PText "x") poly_sines)) =
    get_parameter_names poly_sines.
Proof.
  assert (Hwf : wf poly_sines) by (repeat constructor).
  split; [exact Hwf|]. exact (X7_set_parameter_keeps_wf poly_sines "amplitude" (PText "x") Hwf).
Defined.

(** ** Audio processing *)

Lemma process_audio_params sin n sr d :
  get_parameter_names (fst (process_audio sin n sr d)) = get_parameter_names d /\
  (forall name, get_parameter name (fst (process_audio sin n sr d)) = get_parameter name d) /\
  (wf d -> wf (fst (process_audio sin n sr d))).
Proof.
  induction d as [p f a|p f|p f|vs IH] using DSP_nested_ind.
  - rewrite (process_audio_osc sin n sr (SinOsc p f a) p f) by reflexivity.
    split; [reflexivity|]. split; [intros; reflexivity| intros; constructor].
  - rewrite (process_audio_osc sin n sr (SquareWave p f) p f) by reflexivity.
    split; [reflexivity|]. split; [intros; reflexivity| intros; constructor].
  - rewrite (process_audio_osc sin n sr (SawWave p f) p f) by reflexivity.
    split; [reflexivity|]. split; [intros; reflexivity| intros; constructor].
  - rewrite process_audio_poly. simpl fst.
    destruct vs as [|v vs]; [repeat split; intros; assumption|].
    apply Forall_cons in IH as [[IHn [IHg IHw]] IHs]. simpl.
    split; [exact IHn|]. split; [exact IHg|].
    intros Hwf. pose proof (wf_voices _ Hwf) as Hvs.
    apply Forall_cons in Hvs as [[Hv _] Hvs].
    apply wf_of_voices; [apply IHw, Hv|].
    apply Forall_map. apply Forall_forall. intros w Hw.
    rewrite Forall_forall in IHs, Hvs. destruct (IHs w Hw) as [Hn1 [_ Hw1]].
    destruct (Hvs w Hw) as [Hw2 Hw3]. simpl in Hw3.
    split; [apply Hw1, Hw2|]. congruence.
Qed.

(** X8: processing a buffer never changes a node's parameters: the same
    names, the same [get_parameter] answers (values and exceptions), and a
    well-formed node stays well formed. *)
Theorem X8_process_keeps_parameters sin n sr d :
  get_parameter_names (fst (process_audio sin n sr d)) = get_parameter_names d /\
  (forall name, get_parameter name (fst (process_audio sin n sr d)) = get_parameter name d) /\
  (wf d -> wf (fst (process_audio sin n sr d))).
Proof. apply process_audio_params. Qed.

Lemma X8_process_keeps_parameters_witness :
  wf poly_sines /\ wf (fst (process_audio no_sin 2 48000 poly_sines)).
Proof.
  assert (Hwf : wf poly_sines) by (repeat constructor).
  split; [exact Hwf|].
  exact (proj2 (proj2 (X8_process_keeps_parameters no_sin 2 48000 poly_sines)) Hwf).
Defined.

(** X9: every node, polyphonic or not, writes exactly [nframes] samples. *)
Theorem X9_output_length sin n sr d :
  length (snd (process_audio sin n sr d)) = n.
Proof. apply process_audio_length. Qed.

Lemma last_map_option {A B} (g : A -> B) (l : list A) :
  last (map g l) = option_map g (last l).
Proof.
  induction l as [|x l IH]; [reflexivity|].
  destruct l as [|y l]; [reflexivity|]. exact IH.
Qed.

Lemma process_audio_osc_split sin n m sr d p f :
  osc_state d = Some (p, f) ->
  process_audio sin (n + m) sr d =
  (fst (process_audio sin m sr (fst (process_audio sin n sr d))),
   snd (process_audio sin n sr d) ++ snd (process_audio sin m sr (fst (process_audio sin n sr d)))).
Proof.
  intros Hs. rewrite !(process_audio_osc sin _ sr d p f Hs). cbn [fst snd].
  rewrite (process_audio_osc sin m sr _ _ f (osc_state_with_phase _ _ _ _ Hs)).
  rewrite osc_wave_with_phase, with_phase_twice, osc_loop_app. reflexivity.
Qed.

(** X10: splitting a buffer does not change the sound: rendering [n]
    frames and then [m] frames from the resulting state gives the same
    samples and the same final state as rendering [n + m] frames at once. *)
Theorem X10_split_buffer sin n m sr d :
  process_audio sin (n + m) sr d =
  (fst (process_audio sin m sr (fst (process_audio sin n sr d))),
   snd (process_audio sin n sr d) ++ snd (process_audio sin m sr (fst (process_audio sin n sr d)))).
Proof.
  induction d as [p f a|p f|p f|vs IH] using DSP_nested_ind.
  1-3: apply (process_audio_osc_split _ _ _ _ _ p f); reflexivity.
  - rewrite !process_audio_poly. cbn [fst snd]. rewrite process_audio_poly, map_map.
    cbn [fst snd].
    rewrite Forall_forall in IH.
    f_equal; [f_equal|].
    + apply map_ext_in. intros v Hv. rewrite (IH v (proj2 (list_elem_of_In _ _) Hv)).
      reflexivity.
    + rewrite last_map_option.
      destruct (last vs) as [v|] eqn:E; simpl.
      * rewrite (IH v); [reflexivity|]. apply last_Some_elem_of. exact E.
      * rewrite repeat_app. reflexivity.
Qed.

(** X11: with a sine bounded by 1, every sample of a [SinOsc] is bounded
    by the absolute value of its amplitude. *)
Theorem X11_sine_amplitude_bound sin n sr p f a :
  (forall x, Qabs (sin x) <= 1) ->
  Forall (fun y => Qabs y <= Qabs a) (snd (process_audio sin n sr (SinOsc p f a))).
Proof.
  intros Hsin.
  rewrite (process_audio_osc sin n sr (SinOsc p f a) p f) by reflexivity. cbn [snd osc_wave].
  apply (osc_loop_Forall (fun _ => True)); [exact I|intros; exact I|].
  intros q _. unfold sine_wave. rewrite Qabs_Qmult.
  rewrite <- (Qmult_1_r (Qabs a)) at 2.
  apply Qmult_le_compat_nonneg; split;
    [apply Qabs_nonneg|apply Qle_refl|apply Qabs_nonneg|apply Hsin].
Qed.

Lemma X11_sine_amplitude_bound_witness :
  (forall x, Qabs (no_sin x) <= 1) /\
  Forall (fun y => Qabs y <= Qabs DEFAULT_AMPLITUDE)
         (snd (process_audio no_sin 4 48000 new_SinOsc)).
Proof.
  assert (H : forall x, Qabs (no_sin x) <= 1) by (intros x; vm_compute; intros C; discriminate C).
  split; [exact H|].
  exact (X11_sine_amplitude_bound no_sin 4 48000 0 DEFAULT_FREQUENCY DEFAULT_AMPLITUDE H).
Defined.

(** ** The worker pool *)

Lemma worker_pop_spec s s1 :
  worker_pop s = Some s1 ->
  exists t rest, threads (pool s) <> [] /\ tasks (pool s) = t :: rest /\
    threads (pool s1) = threads (pool s) /\ tasks (pool s1) = rest /\
    quit_flag (pool s1) = quit_flag (pool s) /\
    executed s1 = executed s ++ [t] /\ submitted s1 = submitted s.
Proof.
  unfold worker_pop. destruct (threads (pool s)) as [|w ws] eqn:Et; [discriminate|].
  destruct (tasks (pool s)) as [|t rest] eqn:Eq; [discriminate|].
  intros H. inversion H; subst. simpl. exists t, rest. repeat split; congruence.
Qed.

Lemma pool_step_invariant s s' :
  pool_step s s' -> executed s ++ tasks (pool s) = submitted s ->
  executed s' ++ tasks (pool s') = submitted s'.
Proof.
  destruct 1 as [n s|t s|s s' Hpop]; simpl; intros H.
  - exact H.
  - rewrite app_assoc, H. reflexivity.
  - destruct (worker_pop_spec s s' Hpop) as (t & rest & _ & Ht & _ & Hr & _ & He & Hs).
    rewrite He, Hr, Hs, <- app_assoc, <- H, Ht. reflexivity.
Qed.

Lemma pool_steps_invariant s s' :
  pool_steps s s' -> executed s ++ tasks (pool s) = submitted s ->
  executed s' ++ tasks (pool s') = submitted s'.
Proof.
  induction 1 as [s|s1 s2 s3 H12 _ IH]; intros H; [exact H|].
  apply IH. exact (pool_step_invariant s1 s2 H12 H).
Qed.

Lemma pool_step_threads s s' :
  pool_step s s' -> exists l, threads (pool s') = threads (pool s) ++ l.
Proof.
  destruct 1 as [n s|t s|s s' Hpop]; cbn [pool].
  - rewrite tm_init_threads. eauto.
  - exists []. rewrite app_nil_r. reflexivity.
  - destruct (worker_pop_spec s s' Hpop) as (t & rest & _ & _ & Hth & _).
    exists []. rewrite app_nil_r. exact Hth.
Qed.

Lemma pool_steps_no_threads s s' :
  pool_steps s s' -> threads (pool s') = [] -> executed s' = executed s.
Proof.
  induction 1 as [s|s1 s2 s3 H12 H23 IH]; intros H3; [reflexivity|].
  rewrite (IH H3).
  assert (H2 : threads (pool s2) = []).
  { clear IH H12. induction H23 as [s|s2 s4 s3 H24 _ IH']; [exact H3|].
    destruct (pool_step_threads _ _ H24) as [l Hl].
    specialize (IH' H3). rewrite IH' in Hl. destruct (threads (pool s2)); [reflexivity|].
    discriminate Hl. }
  destruct H12 as [n s|t s|s s' Hpop]; try reflexivity.
  destruct (worker_pop_spec s s' Hpop) as (t & rest & Hne & _ & Hth & _). congruence.
Qed.

Lemma pool_join_spec s s' :
  pool_join s s' ->
  threads (pool s') = [] /\ quit_flag (pool s') = quit_flag (pool s) /\
  submitted s' = submitted s /\
  executed s' ++ tasks (pool s') = executed s ++ tasks (pool s) /\
  (threads (pool s) <> [] -> tasks (pool s') = []) /\
  (threads (pool s) = [] -> executed s' = executed s /\ tasks (pool s') = tasks (pool s)).
Proof.
  induction 1 as [s Hdone|s s1 s2 Hpop _ IH]; simpl.
  - split; [reflexivity|]. split; [reflexivity|]. split; [reflexivity|].
    split; [reflexivity|]. split; [intros Hne; destruct Hdone; [contradiction|assumption]|].
    intros _; split; reflexivity.
  - destruct (worker_pop_spec s s1 Hpop) as (t & rest & Hne & Ht & Hth & Hr & Hq & He & Hs).
    destruct IH as (I1 & I2 & I3 & I4 & I5 & _).
    split; [exact I1|]. split; [congruence|]. split; [congruence|].
    split; [rewrite I4, He, Hr, Ht, <- app_assoc; reflexivity|].
    split; [intros _; apply I5; congruence|]. intros; contradiction.
Qed.




(** X13: [shutdown] leaves no worker and [quit_flag] set.  With at least
    one worker it returns only after the workers have run every queued
    task, front to back; with none, no task runs and the queue is left as
    it was. *)
Theorem X13_shutdown s s' :
  pool_shutdown s s' ->
  threads (pool s') = [] /\ quit_flag (pool s') = true /\ submitted s' = submitted s /\
  (threads (pool s) <> [] -> executed s' = executed s ++ tasks (pool s) /\ tasks (pool s') = []) /\
  (threads (pool s) = [] -> executed s' = executed s /\ tasks (pool s') = tasks (pool s)).
Proof.
  intros H. destruct (pool_join_spec _ _ H) as (I1 & I2 & I3 & I4 & I5 & I6).
  simpl in *. split; [exact I1|]. split; [exact I2|]. split; [exact I3|]. split.
  - intros Hne. specialize (I5 Hne). rewrite I5, app_nil_r in I4. split; assumption.
  - exact I6.
Qed.

Lemma pool_shutdown_run :
  pool_shutdown pool_run
    {| pool := {| threads := []; tasks := []; quit_flag := true |};
       executed := [5; 7]%nat; submitted := [5; 7]%nat |}.
Proof.
  unfold pool_shutdown.
  apply (join_pop _ {| pool := {| threads := [0; 1]%nat; tasks := []; quit_flag := true |};
                       executed := [5; 7]%nat; submitted := [5; 7]%nat |});
    [reflexivity|].
  apply join_done. right. reflexivity.
Qed.

Lemma X13_shutdown_witness :
  pool_shutdown pool_run
    {| pool := {| threads := []; tasks := []; quit_flag := true |};
       executed := [5; 7]%nat; submitted := [5; 7]%nat |} /\
  executed {| pool := {| threads := []; tasks := []; quit_flag := true |};
              executed := [5; 7]%nat; submitted := [5; 7]%nat |} =
    executed pool_run ++ tasks (pool pool_run).
Proof.
  split; [exact pool_shutdown_run|].
  apply (X13_shutdown _ _ pool_shutdown_run). simpl. discriminate.
Defined.


(** X15: if no worker was ever started (as after [init(0)], which [main]
    calls when [hardware_concurrency()] reports 0), no task ever runs,
    and [shutdown] leaves every submitted task in the queue. *)
Theorem X15_no_worker_no_task s s' :
  pool_steps pool_initial s -> threads (pool s) = [] -> pool_shutdown s s' ->
  executed s' = [] /\ tasks (pool s') = submitted s.
Proof.
  intros Hs Ht Hsd.
  pose proof (pool_steps_no_threads _ _ Hs Ht) as He. simpl in He.
  pose proof (pool_steps_invariant _ _ Hs eq_refl) as Hinv.
  destruct (pool_join_spec _ _ Hsd) as (_ & _ & _ & _ & _ & I6). simpl in I6.
  destruct (I6 Ht) as [I6a I6b]. rewrite He in Hinv. simpl in Hinv.
  split; congruence.
Qed.

Lemma pool_no_worker_reachable : pool_steps pool_initial pool_no_worker.
Proof.
  eapply pool_steps_cons; [apply (step_init 0)|]. simpl.
  eapply pool_steps_cons; [apply (step_run_task 3)|]. simpl.
  apply pool_steps_refl.
Qed.

Lemma pool_no_worker_shutdown : pool_shutdown pool_no_worker pool_no_worker_down.
Proof. apply join_done. left. reflexivity. Qed.

Lemma X15_no_worker_no_task_witness :
  pool_steps pool_initial pool_no_worker /\ threads (pool pool_no_worker) = [] /\
  pool_shutdown pool_no_worker pool_no_worker_down /\
  executed pool_no_worker_down = [] /\
  tasks (pool pool_no_worker_down) = submitted pool_no_worker.
Proof.
  split; [exact pool_no_worker_reachable|]. split; [reflexivity|].
  split; [exact pool_no_worker_shutdown|].
  exact (X15_no_worker_no_task _ _ pool_no_worker_reachable eq_refl pool_no_worker_shutdown).
Defined.

(** ** The JACK endpoint *)

Lemma filter_is_close_ports dir l :
  List.filter is_close (map (fun n => CallPortRegister n dir) l) = [].
Proof. induction l as [|x l IH]; [reflexivity|]. exact IH. Qed.

(** X16: the constructor's calls start with [jack_client_open].  A
    constructed client is open and was never closed; a constructor that
    throws after opening has closed the client exactly once, as its last
    call; one whose open failed made no other call. *)
Theorem X16_constructor_trace srv name dsp :
  let '(t, r) := JackClient_new srv name dsp in
  head t = Some (CallClientOpen name) /\
  match r with
  | inl c => client_open c = true /\ List.filter is_close t = [] /\ last t = Some CallActivate
  | inr _ =>
      if open_ok srv name
      then List.filter is_close t = [CallClientClose] /\ last t = Some CallClientClose
      else t = [CallClientOpen name]
  end.
Proof.
  unfold JackClient_new.
  destruct (open_ok srv name), (set_process_callback_ok srv), (activate_ok srv); simpl;
    repeat split; try reflexivity;
    rewrite ?List.filter_app, ?filter_is_close_ports; try reflexivity;
    rewrite ?app_comm_cons; first [apply last_snoc | rewrite last_app_cons; reflexivity].
Qed.

(** X17: a client built around a well-formed node has no input port and
    one output port, ["output0"] (null if the server refused it), and made
    exactly the calls open, set callback, on_shutdown, register
    ["output0"], activate. *)
Theorem X17_client_ports srv name dsp t c :
  wf dsp -> JackClient_new srv name dsp = (t, inl c) ->
  input_ports c = [] /\ output_ports c = [jack_port_register srv "output0"] /\
  jc_dsp c = dsp /\ jc_name c = name /\
  t = [CallClientOpen name; CallSetProcessCallback; CallOnShutdown;
       CallPortRegister "output0" JackPortIsOutput; CallActivate].
Proof.
  intros Hwf H. unfold JackClient_new in H.
  rewrite get_num_inputs_zero, (get_num_outputs_wf dsp Hwf) in H.
  destruct (open_ok srv name), (set_process_callback_ok srv), (activate_ok srv);
    simpl in H; try discriminate.
  inversion H; subst. simpl. repeat split; reflexivity.
Qed.

Lemma X17_client_ports_witness :
  wf poly_sines /\
  JackClient_new server_without_ports "DearJack1" poly_sines =
    ([CallClientOpen "DearJack1"; CallSetProcessCallback; CallOnShutdown;
      CallPortRegister "output0" JackPortIsOutput; CallActivate],
     inl {| client_open := true; input_ports := []; output_ports := [None];
            jc_dsp := poly_sines; jc_name := "DearJack1" |}) /\
  input_ports {| client_open := true; input_ports := []; output_ports := [None];
                 jc_dsp := poly_sines; jc_name := "DearJack1" |} = [].
Proof.
  assert (Hwf : wf poly_sines) by (repeat constructor).
  assert (H : JackClient_new server_without_ports "DearJack1" poly_sines =
    ([CallClientOpen "DearJack1"; CallSetProcessCallback; CallOnShutdown;
      CallPortRegister "output0" JackPortIsOutput; CallActivate],
     inl {| client_open := true; input_ports := []; output_ports := [None];
            jc_dsp := poly_sines; jc_name := "DearJack1" |})) by reflexivity.
  split; [exact Hwf|]. split; [exact H|].
  exact (proj1 (X17_client_ports _ _ _ _ _ Hwf H)).
Defined.

(** X18: over an endpoint's whole life (construction, an optional server
    shutdown, destruction) [jack_client_close] is called at most once: once
    when the open succeeded and either construction failed or the server
    did not shut the client down, never otherwise. *)
Theorem X18_lifecycle_close srv name dsp (server_shuts_down : bool) :
  length (List.filter is_close (endpoint_lifecycle srv name dsp server_shuts_down)) =
  if open_ok srv name &&
     (negb (set_process_callback_ok srv && activate_ok srv) || negb server_shuts_down)
  then 1%nat else 0%nat.
Proof.
  unfold endpoint_lifecycle, JackClient_new.
  destruct (open_ok srv name); simpl; [|reflexivity].
  destruct (set_process_callback_ok srv); simpl; [|reflexivity].
  destruct (activate_ok srv); simpl;
    rewrite !List.filter_app, !filter_is_close_ports; simpl.
  - destruct server_shuts_down; reflexivity.
  - reflexivity.
Qed.

(** ** The parameter panel *)

Lemma get_parameter_float name d v :
  get_parameter name d = inl v -> exists f, v = PFloat f.
Proof.
  induction d as [p f a|p f|p f|vs IH] using DSP_nested_ind; simpl;
    repeat (destruct (String.eqb _ _)); intros H; try discriminate.
  1-4: inversion H; eauto.
  destruct vs as [|w vs]; [discriminate|]. apply Forall_cons in IH as [IH _]. exact (IH H).
Qed.

Lemma get_parameter_names_NoDup d : NoDup (get_parameter_names d).
Proof.
  induction d as [p f a|p f|p f|vs IH] using DSP_nested_ind; simpl.
  - apply NoDup_cons. split; [not_in_names|]. apply NoDup_cons. split; [apply not_elem_of_nil|].
    apply NoDup_nil_2.
  - apply NoDup_cons. split; [apply not_elem_of_nil|apply NoDup_nil_2].
  - apply NoDup_cons. split; [apply not_elem_of_nil|apply NoDup_nil_2].
  - destruct vs as [|v vs]; [apply NoDup_nil_2|]. apply Forall_cons in IH as [IH _]. exact IH.
Qed.

(** A float set of one parameter leaves the others' values alone. *)
Lemma get_after_set_other p q x d :
  p <> q -> get_parameter p (fst (set_parameter q (PFloat x) d)) = get_parameter p d.
Proof.
  intros Hpq.
  induction d as [p0 f a|p0 f|p0 f|vs IH] using DSP_nested_ind; simpl.
  - destruct (String.eqb_spec q "frequency") as [->|_]; simpl.
    + destruct (String.eqb_spec p "frequency"); [congruence|reflexivity].
    + destruct (String.eqb_spec q "amplitude") as [->|_]; simpl; [|reflexivity].
      destruct (String.eqb_spec p "frequency"); [reflexivity|].
      destruct (String.eqb_spec p "amplitude"); [congruence|reflexivity].
  - destruct (String.eqb_spec q "frequency") as [->|_]; simpl; [|reflexivity].
    destruct (String.eqb_spec p "frequency"); [congruence|reflexivity].
  - destruct (String.eqb_spec q "frequency") as [->|_]; simpl; [|reflexivity].
    destruct (String.eqb_spec p "frequency"); [congruence|reflexivity].
  - rewrite fan_out_all_ok.
    + destruct vs as [|v vs]; [reflexivity|]. apply Forall_cons in IH as [IH _]. exact IH.
    + apply Forall_forall. intros w _. apply set_parameter_float_ok.
Qed.

Lemma gui_param_ok ui param d :
  wf d -> param ∈ get_parameter_names d ->
  snd (gui_param ui param d) = None /\ wf (fst (gui_param ui param d)) /\
  get_parameter_names (fst (gui_param ui param d)) = get_parameter_names d.
Proof.
  intros Hwf Hn. destruct (get_parameter_listed param d Hwf Hn) as [f Hf].
  unfold gui_param. rewrite Hf. simpl.
  destruct (String.eqb param "frequency" || String.eqb param "amplitude");
    [|split; [reflexivity|]; split; [exact Hwf|reflexivity]].
  destruct (slider_float ui param f) as [x|]; [|split; [reflexivity|]; split; [exact Hwf|reflexivity]].
  split; [apply set_parameter_float_ok|]. apply set_parameter_wf, Hwf.
Qed.

Lemma gui_param_other ui param d p :
  p <> param -> get_parameter p (fst (gui_param ui param d)) = get_parameter p d.
Proof.
  intros Hne. unfold gui_param.
  destruct (get_parameter param d) as [v|e] eqn:Ev; [|reflexivity].
  destruct (get_parameter_float _ _ _ Ev) as [f ->]. simpl.
  destruct (String.eqb param "frequency" || String.eqb param "amplitude"); [|reflexivity].
  destruct (slider_float ui param f) as [x|]; [|reflexivity].
  apply get_after_set_other, Hne.
Qed.

Lemma gui_loop_ok ui l d :
  wf d -> (forall x, x ∈ l -> x ∈ get_parameter_names d) ->
  snd (gui_loop ui l d) = None /\ wf (fst (gui_loop ui l d)) /\
  get_parameter_names (fst (gui_loop ui l d)) = get_parameter_names d.
Proof.
  revert d. induction l as [|x l IH]; intros d Hwf Hl; simpl; [auto|].
  assert (Hx : x ∈ get_parameter_names d) by (apply Hl; left).
  destruct (gui_param_ok ui x d Hwf Hx) as (H1 & H2 & H3).
  destruct (gui_param ui x d) as [d' e]. simpl in *. subst e.
  destruct (IH d' H2) as (I1 & I2 & I3).
  - intros y Hy. rewrite H3. apply Hl. right. exact Hy.
  - split; [exact I1|]. split; [exact I2|]. congruence.
Qed.

Lemma gui_loop_app ui l1 l2 d :
  gui_loop ui (l1 ++ l2) d =
  match gui_loop ui l1 d with
  | (d', None) => gui_loop ui l2 d'
  | r => r
  end.
Proof.
  revert d. induction l1 as [|x l1 IH]; intros d; simpl; [reflexivity|].
  destruct (gui_param ui x d) as [d' [e|]]; [reflexivity|]. apply IH.
Qed.

Lemma gui_loop_other ui l d p :
  wf d -> (forall x, x ∈ l -> x ∈ get_parameter_names d) -> p ∉ l ->
  get_parameter p (fst (gui_loop ui l d)) = get_parameter p d.
Proof.
  revert d. induction l as [|x l IH]; intros d Hwf Hl Hp; simpl; [reflexivity|].
  assert (Hx : x ∈ get_parameter_names d) by (apply Hl; left).
  destruct (gui_param_ok ui x d Hwf Hx) as (H1 & H2 & H3).
  assert (Hpx : p <> x) by (intros ->; apply Hp; left).
  pose proof (gui_param_other ui x d p Hpx) as H4.
  destruct (gui_param ui x d) as [d' e]. simpl in *. subst e.
  rewrite IH; [exact H4|exact H2| |].
  - intros y Hy. rewrite H3. apply Hl. right. exact Hy.
  - intros Hy. apply Hp. right. exact Hy.
Qed.

(** X19: on a well-formed node, a pass of the parameter panel never
    throws, whatever the user does with the widgets, and the node stays
    well formed with the same parameter names. *)
Theorem X19_gui_never_throws ui d :
  wf d ->
  snd (render_client_gui ui d) = None /\ wf (fst (render_client_gui ui d)) /\
  get_parameter_names (fst (render_client_gui ui d)) = get_parameter_names d.
Proof. intros Hwf. apply gui_loop_ok; [exact Hwf|]. intros x Hx. exact Hx. Qed.

Lemma X19_gui_never_throws_witness :
  wf poly_sines /\ snd (render_client_gui ui_all_one poly_sines) = None.
Proof.
  assert (Hwf : wf poly_sines) by (repeat constructor).
  split; [exact Hwf|]. exact (proj1 (X19_gui_never_throws ui_all_one poly_sines Hwf)).
Defined.

(** X20: after a pass of the panel over a well-formed node, its
    ["frequency"] and ["amplitude"] hold the value the user set with the
    slider, or their old value if the slider was left alone; setting one
    never disturbs the other. *)
Theorem X20_gui_slider_value ui d p f :
  wf d -> (p = "frequency" \/ p = "amplitude") -> get_parameter p d = inl (PFloat f) ->
  get_parameter p (fst (render_client_gui ui d)) =
  inl (PFloat (match slider_float ui p f with Some x => x | None => f end)).
Proof.
  intros Hwf Hp Hf.
  assert (Hn : p ∈ get_parameter_names d).
  { destruct (decide (p ∈ get_parameter_names d)) as [H|H]; [exact H|].
    rewrite (get_parameter_unknown p d Hwf H) in Hf. discriminate. }
  pose proof (get_parameter_names_NoDup d) as Hnd.
  destruct (list_elem_of_split _ _ Hn) as (pre & post & Hsplit).
  rewrite Hsplit in Hnd. apply NoDup_app in Hnd as (_ & Hpre & Hpost).
  apply NoDup_cons in Hpost as [Hpost _].
  assert (Hppre : p ∉ pre) by (intros H; apply (Hpre p H); left).
  unfold render_client_gui. rewrite Hsplit, gui_loop_app.
  assert (Hl1 : forall x, x ∈ pre -> x ∈ get_parameter_names d)
    by (intros x Hx; rewrite Hsplit; apply elem_of_app; left; exact Hx).
  destruct (gui_loop_ok ui pre d Hwf Hl1) as (A1 & A2 & A3).
  pose proof (gui_loop_other ui pre d p Hwf Hl1 Hppre) as A4.
  destruct (gui_loop ui pre d) as [d1 e1]. simpl in *. subst e1.
  simpl. assert (Hn1 : p ∈ get_parameter_names d1) by (rewrite A3; exact Hn).
  destruct (gui_param_ok ui p d1 A2 Hn1) as (B1 & B2 & B3).
  assert (B4 : get_parameter p (fst (gui_param ui p d1)) =
               inl (PFloat (match slider_float ui p f with Some x => x | None => f end))).
  { unfold gui_param. rewrite A4, Hf. simpl.
    replace (String.eqb p "frequency" || String.eqb p "amplitude") with true
      by (destruct Hp; subst; reflexivity).
    destruct (slider_float ui p f) as [x|]; [|exact (eq_trans A4 Hf)].
    apply set_get_roundtrip; assumption. }
  destruct (gui_param ui p d1) as [d2 e2]. simpl in *. subst e2.
  rewrite gui_loop_other; [exact B4|exact B2| |exact Hpost].
  intros x Hx. rewrite B3, A3, Hsplit. apply elem_of_app. right. right. exact Hx.
Qed.

Lemma X20_gui_slider_value_witness :
  wf poly_sines /\ ("frequency" = "frequency" \/ "frequency" = "amplitude") /\
  get_parameter "frequency" poly_sines = inl (PFloat DEFAULT_FREQUENCY) /\
  get_parameter "frequency" (fst (render_client_gui ui_all_one poly_sines)) = inl (PFloat 1).
Proof.
  assert (Hwf : wf poly_sines) by (repeat constructor).
  assert (Hp : "frequency" = "frequency" \/ "frequency" = "amplitude") by (left; reflexivity).
  assert (Hf : get_parameter "frequency" poly_sines = inl (PFloat DEFAULT_FREQUENCY))
    by reflexivity.
  split; [exact Hwf|]. split; [exact Hp|]. split; [exact Hf|].
  exact (X20_gui_slider_value ui_all_one poly_sines "frequency" DEFAULT_FREQUENCY Hwf Hp Hf).
Defined.

(** ** The event loop of [main] *)

Lemma client_name_inj k k' : client_name k = client_name k' -> k = k'.
Proof. unfold client_name. intros H. apply (inj (String.app "DearJack")) in H. apply (inj pretty) in H. exact H. Qed.

Lemma JackClient_new_error srv name dsp t e :
  JackClient_new srv name dsp = (t, inr e) -> jack_error e.
Proof.
  unfold JackClient_new, jack_error.
  destruct (open_ok srv name), (set_process_callback_ok srv), (activate_ok srv);
    simpl; intros H; inversion H; subst; auto.
Qed.

Lemma JackClient_new_ok srv name dsp t c :
  JackClient_new srv name dsp = (t, inl c) -> jc_dsp c = dsp /\ jc_name c = name.
Proof.
  unfold JackClient_new.
  destruct (open_ok srv name), (set_process_callback_ok srv), (activate_ok srv);
    simpl; intros H; inversion H; subst; auto.
Qed.

Lemma render_clients_wf ui cs :
  Forall (fun c => wf (jc_dsp c)) cs ->
  exists cs', render_clients ui cs = inl cs' /\ map jc_name cs' = map jc_name cs /\
              Forall (fun c => wf (jc_dsp c)) cs'.
Proof.
  induction 1 as [|c cs Hc _ IH]; simpl; [exists []; auto|].
  unfold render_client_gui.
  destruct (gui_loop_ok (ui (jc_name c)) (get_parameter_names (jc_dsp c)) (jc_dsp c) Hc
              (fun x Hx => Hx)) as (G1 & G2 & _).
  destruct (gui_loop _ _ _) as [d' e]. simpl in *. subst e.
  destruct IH as (cs' & -> & Hn & Hw).
  eexists. split; [reflexivity|]. simpl. split; [congruence|]. constructor; assumption.
Qed.

Section MainLoop.
Variable srv : JackServer.
Variable creators : gmap string DSPCreator.
Hypothesis creators_wf : forall n c, creators !! n = Some c -> wf (c tt).

Lemma main_step_inv ev st st' :
  main_inv creators st -> main_step srv creators ev st = inl st' -> main_inv creators st'.
Proof.
  intros (I1 & I2 & I3 & I4). destruct ev as [| |idx|ui]; simpl.
  - destruct I1 as [c Hc]. rewrite (add_client_dsp_registered _ _ _ Hc).
    destruct (JackClient_new srv (client_name (client_count st)) _) as [t [c'|e]] eqn:Ej;
      [|discriminate].
    intros H; inversion H; subst; clear H.
    destruct (JackClient_new_ok _ _ _ _ _ Ej) as [Hd Hn].
    unfold main_inv; simpl. split; [exists c; exact Hc|]. split.
    + apply Forall_app. split; [exact I2|]. constructor; [|constructor].
      rewrite Hd. apply wf_repeat, (creators_wf _ _ Hc).
    + split.
      * apply Forall_app. split.
        -- eapply Forall_impl; [exact I3|]. intros w (k & Hk & Hw). exists k. split; [lia|exact Hw].
        -- constructor; [|constructor]. exists (client_count st). split; [lia|exact Hn].
      * rewrite map_app. simpl. apply NoDup_app. split; [exact I4|]. split.
        -- intros x Hx. rewrite list_elem_of_In, in_map_iff in Hx.
           destruct Hx as (w & <- & Hw). rewrite Forall_forall in I3.
           destruct (I3 w (proj2 (list_elem_of_In _ _) Hw)) as (k & Hk & Hwk).
           rewrite Hwk, Hn. intros Hin. apply list_elem_of_singleton in Hin.
           apply client_name_inj in Hin. lia.
        -- apply NoDup_singleton.
  - destruct (last (jack_clients st)) as [c|] eqn:El.
    + intros H; inversion H; subst; clear H.
      apply last_Some in El as [l El].
      unfold main_inv; simpl. rewrite El in I2, I3, I4 |- *. rewrite removelast_last. split; [exact I1|].
      apply Forall_app in I2 as [I2 _]. apply Forall_app in I3 as [I3 _].
      rewrite map_app in I4. apply NoDup_app in I4 as [I4 _]. auto.
    + intros H; inversion H; subst; unfold main_inv; auto.
  - destruct (get_registered_dsps creators !! idx) as [n|] eqn:En.
    + intros H; inversion H; subst; clear H. unfold main_inv; simpl.
      split; [|auto]. apply get_registered_dsps_elem.
      eapply list_elem_of_lookup_2; exact En.
    + intros H; inversion H; subst; unfold main_inv; auto.
  - destruct (render_clients_wf ui _ I2) as (cs' & -> & Hn & Hw).
    intros H; inversion H; subst; clear H. unfold main_inv; simpl.
    split; [exact I1|]. split; [exact Hw|]. split; [|rewrite Hn; exact I4].
    apply Forall_forall. intros w Hw'.
    assert (Hin : jc_name w ∈ map jc_name (jack_clients st))
      by (rewrite <- Hn, list_elem_of_In, in_map_iff; exists w;
          split; [reflexivity|apply list_elem_of_In, Hw']).
    rewrite list_elem_of_In, in_map_iff in Hin. destruct Hin as (w0 & Hw0 & Hin).
    rewrite Forall_forall in I3. destruct (I3 w0 (proj2 (list_elem_of_In _ _) Hin)) as (k & Hk & Hwk).
    exists k. split; [exact Hk|]. congruence.
Qed.

Lemma main_step_error ev st e :
  main_inv creators st -> main_step srv creators ev st = inr e -> jack_error e.
Proof.
  intros (I1 & I2 & I3 & I4). destruct ev as [| |idx|ui]; simpl.
  - destruct I1 as [c Hc]. rewrite (add_client_dsp_registered _ _ _ Hc).
    destruct (JackClient_new srv (client_name (client_count st)) _) as [t [c'|e']] eqn:Ej;
      [discriminate|].
    intros H; inversion H; subst. exact (JackClient_new_error _ _ _ _ _ Ej).
  - destruct (last (jack_clients st)); discriminate.
  - destruct (get_registered_dsps creators !! idx); discriminate.
  - destruct (render_clients_wf ui _ I2) as (cs' & -> & _). discriminate.
Qed.

Lemma main_run_inv evs st :
  main_inv creators st ->
  match main_run srv creators evs st with
  | inl st' => main_inv creators st'
  | inr e => jack_error e
  end.
Proof.
  revert st. induction evs as [|ev evs IH]; intros st Hst; simpl; [exact Hst|].
  destruct (main_step srv creators ev st) as [st1|e] eqn:E.
  - apply IH. exact (main_step_inv ev st st1 Hst E).
  - exact (main_step_error ev st e Hst E).
Qed.
End MainLoop.

Lemma main_factory_wf n c : main_factory !! n = Some c -> wf (c tt).
Proof.
  unfold main_factory, register_dsp. destruct (String.eqb_spec "SinOsc" n) as [<-|Hne].
  - rewrite lookup_insert_eq. intros H; inversion H; subst. constructor.
  - rewrite lookup_insert_ne by exact Hne. rewrite lookup_empty. discriminate.
Qed.

Lemma main_initial_inv : main_inv main_factory main_initial.
Proof.
  unfold main_inv, main_factory, register_dsp. simpl. rewrite lookup_insert_eq.
  split; [eexists; reflexivity|]. split; [constructor|]. split; [constructor|]. apply NoDup_nil_2.
Qed.


(** X22: the only exceptions that can end [main]'s loop are the JACK
    server refusing to open, to set the process callback, or to activate:
    never an unknown DSP type, an unknown parameter or a wrong variant. *)
Theorem X22_main_only_jack_errors srv evs e :
  main_run srv main_factory evs main_initial = inr e -> jack_error e.
Proof.
  intros H. pose proof (main_run_inv srv main_factory main_factory_wf evs main_initial
                          main_initial_inv) as Hr.
  rewrite H in Hr. exact Hr.
Qed.


Lemma X22_main_only_jack_errors_witness :
  main_run server_refusing main_factory [SelectDspType 0; AddJackClient] main_initial =
    inr (RuntimeError "Failed to open JACK client") /\
  jack_error (RuntimeError "Failed to open JACK client").
Proof.
  assert (H : main_run server_refusing main_factory [SelectDspType 0; AddJackClient] main_initial =
              inr (RuntimeError "Failed to open JACK client")) by (vm_compute; reflexivity).
  split; [exact H|]. exact (X22_main_only_jack_errors _ _ _ H).
Defined.

(** ** The earlier single-sine client (part_002) *)

Lemma osc_loop_wave_Qeq (w1 w2 : Q -> Q) inc p n :
  (forall q, w1 q == w2 q) ->
  Forall2 Qeq (fst (osc_loop w1 inc p n)) (fst (osc_loop w2 inc p n)).
Proof.
  intros Hw. revert p. induction n as [|n IH]; intros p; simpl; [constructor|].
  specialize (IH (advance inc p)).
  destruct (osc_loop w1 inc (advance inc p) n), (osc_loop w2 inc (advance inc p) n).
  simpl in *. constructor; [apply Hw|exact IH].
Qed.

(** X23: the earlier client's sine renders, sample for sample, what a
    [SinOsc] of the same phase and frequency renders at amplitude 1, and
    ends at the same phase. *)
Theorem X23_single_client_unit_sine sin n sr f p :
  Forall2 Qeq (fst (single_process_audio sin n sr f p))
              (snd (process_audio sin n sr (SinOsc p f 1))) /\
  osc_state (fst (process_audio sin n sr (SinOsc p f 1))) =
    Some (snd (single_process_audio sin n sr f p), f).
Proof.
  rewrite (process_audio_osc sin n sr (SinOsc p f 1) p f) by reflexivity.
  cbn [fst snd osc_wave with_phase osc_state]. unfold single_process_audio.
  split; [|rewrite !osc_loop_phase; reflexivity].
  apply osc_loop_wave_Qeq. intros q. unfold sine_wave. rewrite Qmult_1_l. reflexivity.
Qed.

(** X24: the earlier client's constructor opens first; a constructed
    client was never closed; after a successful open, a refused port or
    activation closes the client exactly once, as the last call, before
    throwing; a refused open makes no other call. *)
Theorem X24_single_constructor_trace srv name :
  let '(t, r) := JackClient_single_new srv name in
  head t = Some (CallClientOpen name) /\
  match r with
  | inl _ => List.filter is_close t = [] /\ last t = Some CallActivate
  | inr _ =>
      if open_ok srv name
      then List.filter is_close t = [CallClientClose] /\ last t = Some CallClientClose
      else t = [CallClientOpen name]
  end.
Proof.
  unfold JackClient_single_new, jack_port_register.
  destruct (open_ok srv name), (port_register_ok srv "output"), (activate_ok srv);
    simpl; repeat split; reflexivity.
Qed.
